(** * hiddenlayer/graph.py: the Node and Graph classes

    A shallow embedding of the node record and of the graph container of
    [hiddenlayer/graph.py] (node and edge storage, identity resolution,
    topology queries, removal and replacement of nodes), followed by the
    properties of these operations.

    Conventions of the embedding:
    - a Python value that the modelled code inspects (an [output_shape], an
      edge label) is a [pyval]: [None], an [int], a [str], a [tuple] or a
      [list]; on these classes Python's [==] is structural equality.  Values
      of class [bool] and [float] are not represented;
    - a [Node] object is its address (Python object identity) together with
      its attributes; the class defines no [__eq__], so [==] on nodes is
      identity, i.e. equality of addresses;
    - the node mapping [self.nodes] is a [gmap], the edge list [self.edges]
      a [list] in insertion order;
    - a method that mutates the graph or may raise is a computation in the
      monad [M]: it maps the graph before the call to an outcome (an
      exception or a result) and the graph after the call.  A raised
      exception keeps the mutations done before it. *)

From Stdlib Require Import ZArith Ascii.
From stdpp Require Import gmap strings list fin_maps pretty.

Local Open Scope Z_scope.

(** ** Python values *)

#[local] Unset Elimination Schemes.
Inductive pyval : Type :=
  | PyNone
  | PyInt (z : Z)
  | PyStr (s : string)
  | PyTuple (items : list pyval)
  | PyList (items : list pyval).
#[local] Set Elimination Schemes.

Definition pyval_eq_dec : ∀ x y : pyval, {x = y} + {x ≠ y}.
Proof.
  fix IH 1. intros x y.
  assert (IHl : ∀ l k : list pyval, {l = k} + {l ≠ k}).
  { fix IHl 1. intros [|a l] [|b k].
    - left; reflexivity.
    - right; discriminate.
    - right; discriminate.
    - destruct (IH a b) as [->|Hab].
      + destruct (IHl l k) as [->|Hlk].
        * left; reflexivity.
        * right; intros [= ?]; contradiction.
      + right; intros [= ? ?]; contradiction. }
  destruct x as [|z|s|l|l], y as [|z'|s'|l'|l'];
    try (right; discriminate); try (left; reflexivity).
  - destruct (Z.eq_dec z z') as [->|Hz]; [left; reflexivity|].
    right; intros [= ?]; contradiction.
  - destruct (String.string_dec s s') as [->|Hs]; [left; reflexivity|].
    right; intros [= ?]; contradiction.
  - destruct (IHl l l') as [->|Hl]; [left; reflexivity|].
    right; intros [= ?]; contradiction.
  - destruct (IHl l l') as [->|Hl]; [left; reflexivity|].
    right; intros [= ?]; contradiction.
Defined.

#[global] Instance pyval_eq_decision : EqDecision pyval := pyval_eq_dec.

(** Truth value of a Python object, as tested by [if v:]. *)
Definition truthy (v : pyval) : bool :=
  match v with
  | PyNone => false
  | PyInt z => negb (z =? 0)
  | PyStr s => negb (String.length s =? 0)%nat
  | PyTuple l => negb (length l =? 0)%nat
  | PyList l => negb (length l =? 0)%nat
  end.

(** [isinstance(v, (tuple, list))]. *)
Definition is_tuple_or_list (v : pyval) : bool :=
  match v with
  | PyTuple _ | PyList _ => true
  | _ => false
  end.

(** [str(type(v))], the text that [format] substitutes for [type(v)]. *)
Definition type_repr (v : pyval) : string :=
  match v with
  | PyNone => "<class 'NoneType'>"
  | PyInt _ => "<class 'int'>"
  | PyStr _ => "<class 'str'>"
  | PyTuple _ => "<class 'tuple'>"
  | PyList _ => "<class 'list'>"
  end.

(** ** Identifiers and exceptions *)

(** Node identifiers are supplied by the caller: strings, or integers (the
    64-bit numbers of [sequence_id], the [hash] of an object that has no
    [id] attribute). *)
Inductive uid : Type :=
  | UStr (s : string)
  | UInt (z : Z).

#[global] Instance uid_eq_decision : EqDecision uid.
Proof. solve_decision. Defined.

#[global] Instance uid_countable : Countable uid.
Proof.
  refine (inj_countable'
            (λ u, match u with UStr s => inl s | UInt z => inr z end)
            (λ x, match x with inl s => UStr s | inr z => UInt z end) _).
  intros []; reflexivity.
Defined.

(** The exception classes that the modelled code raises, and [TypeError],
    which the specification names. *)
Inductive exn : Type :=
  | AssertionError (msg : string)
  | KeyError (key : uid)
  | IndexError (msg : string)
  | TypeError (msg : string).

#[global] Instance exn_eq_decision : EqDecision exn.
Proof. solve_decision. Defined.

(** A parameter that is either one object or a [list] of objects; the
    methods normalise it with [x if isinstance(x, list) else [x]]. *)
Inductive arg (A : Type) : Type :=
  | One (x : A)
  | Many (xs : list A).
Arguments One {A} x.
Arguments Many {A} xs.

Definition as_list {A : Type} (a : arg A) : list A :=
  match a with
  | One x => [x]
  | Many xs => xs
  end.

(** ** Node *)

Module Node.

Record t : Type := mk {
  addr : positive;
  id : uid;
  name : pyval;
  op : pyval;
  repeat : Z;
  output_shape : pyval;
  params : gmap string pyval;
  _caption : string
}.

#[global] Instance eq_decision : EqDecision t.
Proof. solve_decision. Defined.

(** [n == m] on nodes: object identity. *)
Definition same (n m : t) : bool := bool_decide (addr n = addr m).

(** [Node.__init__(self, uid, name, op, output_shape=None, params=None)];
    [self] is the address of the object being initialised.  The [params]
    argument is [None] or a dict; [params if params else {}] turns [None]
    (and an empty dict) into an empty dict. *)
Definition __init__ (self : positive) (uid0 : uid) (name0 op0 : pyval)
    (output_shape0 : pyval) (params0 : option (gmap string pyval))
    : exn + t :=
  let node := {| addr := self;
                 id := uid0;
                 name := name0;
                 op := op0;
                 repeat := 1;
                 output_shape := output_shape0;
                 params := default ∅ params0;
                 _caption := EmptyString |} in
  if truthy output_shape0 then
    if is_tuple_or_list output_shape0 then inr node
    else inl (AssertionError
                ("output_shape must be a tuple or list but received "
                   +:+ type_repr output_shape0))
  else inr node.

End Node.

(** ** Graph *)

(** An edge is the tuple [(source id, target id, label)]. *)
Definition edge : Type := uid * uid * pyval.

Module Graph.

Record t : Type := mk {
  nodes : gmap uid Node.t;
  edges : list edge
}.

(** [Graph()] without a model: no nodes, no edges.  The attributes
    [meaningful_ids] and [theme] are read by [sequence_id] and [build_dot]
    only and are left out of the record. *)
Definition __init__ : t := {| nodes := ∅; edges := [] |}.

(** *** Computations over the graph *)

Definition M (A : Type) : Type := t → (exn + A) * t.

#[global] Instance M_ret : MRet M := λ A x g, (inr x, g).

#[global] Instance M_bind : MBind M := λ A B f m g,
  match m g with
  | (inl e, g') => (inl e, g')
  | (inr x, g') => f x g'
  end.

Definition raise {A : Type} (e : exn) : M A := λ g, (inl e, g).

Definition gets {A : Type} (f : t → A) : M A := λ g, (inr (f g), g).

Definition modify (f : t → t) : M unit := λ g, (inr (), f g).

(** [for x in xs: body(x)], over a list that the body does not alias. *)
Fixpoint for_each {A : Type} (xs : list A) (body : A → M unit) : M unit :=
  match xs with
  | [] => mret ()
  | x :: xs' => body x;; for_each xs' body
  end.

(** The graph after a computation, and whether it returned normally. *)
Definition state_after {A : Type} (m : M A) (g : t) : t := (m g).2.

Definition returns {A : Type} (m : M A) (g : t) : Prop :=
  ∃ x, (m g).1 = inr x.

Definition raises {A : Type} (m : M A) (g : t) (e : exn) : Prop :=
  (m g).1 = inl e.

(** Every key of the node mapping is the identifier of the node stored
    under it, as [add_node] stores it. *)
Definition keyed (g : t) : Prop :=
  map_Forall (λ k n, Node.id n = k) (nodes g).

Section methods.

(** [hash(None)]: an integer fixed by the interpreter. *)
Variable hash_None : Z.

(** [id(self, node)]: the [id] attribute when the object has one, else its
    hash.  The objects that reach it are nodes and [None] (the result of a
    failed lookup). *)
Definition id (node : option Node.t) : uid :=
  match node with
  | Some n => Node.id n
  | None => UInt hash_None
  end.

Definition add_node (node : Node.t) : M unit :=
  modify (λ g, {| nodes := <[id (Some node) := node]> (nodes g);
                  edges := edges g |}).

Definition add_edge (node1 node2 : option Node.t) (label : pyval) : M unit :=
  let e : edge := (id node1, id node2, label) in
  modify (λ g, if decide (e ∈ edges g) then g
               else {| nodes := nodes g; edges := edges g ++ [e] |}).

Definition add_edge_by_id (vid1 vid2 : uid) (label : pyval) : M unit :=
  modify (λ g, {| nodes := nodes g;
                  edges := edges g ++ [(vid1, vid2, label)] |}).

(** [list(set(...))]: the distinct targets, in the order of the set. *)
Definition outgoing (g : t) (node : arg (option Node.t)) : list uid :=
  let node_ids := id <$> as_list node in
  let outgoing :=
    (λ e : edge, e.1.2) <$> filter (λ e : edge, e.1.1 ∈ node_ids) (edges g) in
  elements (list_to_set outgoing : gset uid).

Definition incoming (g : t) (node : Node.t) : list uid :=
  (λ e : edge, e.1.1)
    <$> filter (λ e : edge, e.1.2 = id (Some node)) (edges g).

(** [__getitem__]: the branch for a single key, and the branch for a list
    of keys. *)
Definition getitem (g : t) (key : uid) : option Node.t := nodes g !! key.

Definition getitem_list (g : t) (key : list uid) : list (option Node.t) :=
  (λ k, nodes g !! k) <$> key.

Definition siblings (g : t) (node : Node.t) : list (option Node.t) :=
  let incoming := incoming g node in
  match incoming with
  | [k] =>
      let incoming := getitem g k in
      getitem_list g (outgoing g (One incoming))
  | _ => [Some node]
  end.

(** [del self.nodes[k]]. *)
Definition del_node (k : uid) : M unit := λ g,
  match nodes g !! k with
  | Some _ => (inr (), {| nodes := delete k (nodes g); edges := edges g |})
  | None => (inl (KeyError k), g)
  end.

Definition remove (nodes0 : arg Node.t) : M unit :=
  for_each (as_list nodes0) (λ node,
    let k := id (Some node) in
    modify (λ g, {| nodes := nodes g;
                    edges := filter (λ e : edge, e.1.1 ≠ k ∧ e.1.2 ≠ k)
                               (edges g) |});;
    del_node k).

(** [nodes[0]] and [nodes[-1]]. *)
Definition index_first {A : Type} (xs : list A) : M A :=
  match head xs with
  | Some x => mret x
  | None => raise (IndexError "list index out of range")
  end.

Definition index_last {A : Type} (xs : list A) : M A :=
  match last xs with
  | Some x => mret x
  | None => raise (IndexError "list index out of range")
  end.

(** [self.nodes[k]]. *)
Definition nodes_at (k : uid) : M Node.t := λ g,
  match nodes g !! k with
  | Some n => (inr n, g)
  | None => (inl (KeyError k), g)
  end.

(** Every stored object is a [Node] and has the attribute [output_shape],
    so the [hasattr] tests of [replace] take their first branch. *)
Definition replace (nodes0 : arg Node.t) (node : Node.t) : M unit :=
  let nodes1 := as_list nodes0 in
  collapse ← gets (λ g, bool_decide (is_Some (nodes g !! id (Some node))));
  (if negb collapse then add_node node else mret ());;
  first ← index_first nodes1;
  sources ← gets (λ g, incoming g first);
  for_each sources (λ k,
    in_node ← nodes_at k;
    add_edge (Some in_node) (Some node) (Node.output_shape in_node));;
  final ← index_last nodes1;
  targets ← gets (λ g, outgoing g (One (Some final)));
  for_each targets (λ k,
    target ← gets (λ g, getitem g k);
    add_edge (Some node) target (Node.output_shape node));;
  for_each nodes1 (λ n,
    if collapse && Node.same n node then mret ()
    else remove (One n)).

End methods.

End Graph.

(** ** Abbreviations used in the statements *)

(** The edges that do not touch the identifier [k]: the filter of
    [remove]. *)
Abbreviation untouched k :=
  (filter (λ e : edge, e.1.1 ≠ k ∧ e.1.2 ≠ k)).

(** The edges that touch none of the identifiers [ks]. *)
Abbreviation untouched_all ks :=
  (filter (λ e : edge, (e.1.1 ∉ ks) ∧ (e.1.2 ∉ ks))).

(** The number of copies of the edge [e] in an edge list. *)
Abbreviation copies e es := (length (filter (λ x : edge, x = e) es)).

(** The three loops of [replace]: the one that connects the sources of
    [nodes[0]] to the new node, the one that connects the new node to the
    targets of [nodes[-1]], and the one that removes the old nodes. *)
Abbreviation rewire_in hash_None node :=
  (λ k : uid,
     in_node ← Graph.nodes_at k;
     Graph.add_edge hash_None (Some in_node) (Some node)
       (Node.output_shape in_node)).

Abbreviation rewire_out hash_None node :=
  (λ k : uid,
     target ← Graph.gets (λ g, Graph.getitem g k);
     Graph.add_edge hash_None (Some node) target (Node.output_shape node)).

Abbreviation remove_old hash_None collapse node :=
  (λ n : Node.t,
     if collapse && Node.same n node then mret ()
     else Graph.remove hash_None (One n)).

(** ** Further functions of the module *)

(** [detect_framework(value)].  The argument stands for the tuple
    [classes]: the [__module__] of the class of [value], followed by the
    [__module__] of each of its direct bases.  The function falls off its
    end, and so returns [None], when no class matches. *)
Fixpoint detect_framework (classes : list string) : option string :=
  match classes with
  | [] => None
  | c :: rest =>
      if String.prefix "torch" c then Some "torch"
      else if String.prefix "tensorflow" c then Some "tensorflow"
      else detect_framework rest
  end.

(** The items of [str.join]: every item must be a [str]; the first one that
    is not raises [TypeError], which names its position. *)
Fixpoint join_items (i : nat) (ids : list uid) : exn + list string :=
  match ids with
  | [] => inr []
  | UStr s :: rest =>
      match join_items (S i) rest with
      | inr items => inr (s :: items)
      | inl e => inl e
      end
  | UInt _ :: _ =>
      inl (TypeError
             ("sequence item " +:+ pretty i
                +:+ ": expected str instance, int found"))
  end.

(** [Graph.sequence_id(self, sequence)].  [meaningful_ids] is the attribute
    of the graph that selects the policy; [random_bits] is the number that
    [getrandbits(64)] draws in this call. *)
Definition sequence_id (meaningful_ids : bool) (random_bits : Z)
    (sequence : list Node.t) : exn + uid :=
  if meaningful_ids then
    match join_items 0 (Node.id <$> sequence) with
    | inr items => inr (UStr (String.concat "><" items))
    | inl e => inl e
    end
  else inr (UInt random_bits).

(** [Graph.search(self, pattern)].  [pattern] is the [match] method of the
    pattern object, which returns the pair [(match, following)]; [values] is
    [self.nodes.values()], the stored nodes in insertion order, which the
    node mapping of the model does not record.  A match is taken when the
    list [match] is not empty. *)
Fixpoint search (pattern : Graph.t → Node.t → list Node.t * option Node.t)
    (g : Graph.t) (values : list Node.t) : list Node.t * option Node.t :=
  match values with
  | [] => ([], None)
  | node :: rest =>
      let '(matched, following) := pattern g node in
      match matched with
      | _ :: _ => (matched, following)
      | [] => search pattern g rest
      end
  end.

(** *** The file name that save hands to the renderer *)

(** Strings are sequences of bytes; the functions below look for the ASCII
    characters [/] and [.] and for an occurrence of a string, which gives
    the same result on the UTF-8 encoding as on the text. *)

(** Whether the character [c] occurs in [s]. *)
Fixpoint has_char (c : Ascii.ascii) (s : string) : bool :=
  match s with
  | EmptyString => false
  | String x s' => if Ascii.eqb x c then true else has_char c s'
  end.

(** [p[:i], p[i:]] for [i = p.rfind('/') + 1]: the part up to and including
    the last slash, and the part after it. *)
Fixpoint split_at_last_slash (p : string) : string * string :=
  match p with
  | EmptyString => (EmptyString, EmptyString)
  | String c p' =>
      let '(head, tail) := split_at_last_slash p' in
      match head with
      | EmptyString =>
          if Ascii.eqb c "/"%char then (String c EmptyString, tail)
          else (EmptyString, String c tail)
      | String _ _ => (String c head, tail)
      end
  end.

(** [s.rstrip('/')]. *)
Fixpoint rstrip_slashes (s : string) : string :=
  match s with
  | EmptyString => EmptyString
  | String c s' =>
      match rstrip_slashes s' with
      | EmptyString =>
          if Ascii.eqb c "/"%char then EmptyString else String c EmptyString
      | String _ _ as r => String c r
      end
  end.

(** [s == '/' * len(s)]. *)
Fixpoint all_slashes (s : string) : bool :=
  match s with
  | EmptyString => true
  | String c s' => Ascii.eqb c "/"%char && all_slashes s'
  end.

(** [os.path.split(p)] of [posixpath]. *)
Definition os_path_split (p : string) : string * string :=
  let '(head, tail) := split_at_last_slash p in
  ((match head with
    | EmptyString => head
    | String _ _ => if all_slashes head then head else rstrip_slashes head
    end),
   tail).

(** [s.replace(old, E)] for the empty string [E] and a non-empty [old]: the
    occurrences of [old] are found from the left, without overlap, and
    deleted.  [skip] counts the characters of the occurrence at hand that
    are still to be dropped. *)
Fixpoint delete_occurrences (old : string) (skip : nat) (s : string)
    : string :=
  match s with
  | EmptyString => EmptyString
  | String c s' =>
      match skip with
      | S k => delete_occurrences old k s'
      | O =>
          if String.prefix old s
          then delete_occurrences old (String.length old - 1) s'
          else String c (delete_occurrences old 0 s')
      end
  end.

(** The path handling of [Graph.save(self, path, format)], the statements
    from [os.path.split] to the call of the renderer: the pair
    [(file_name, directory)] that [dot.render] is called with, when the
    call is reached. *)
Definition save_render_arguments (path format : string) : string * string :=
  let '(directory, file_name) := os_path_split path in
  let file_name := delete_occurrences ("." +:+ format) 0 file_name in
  (file_name, directory).



(** ** Sample nodes and graphs *)

(** [hash(None)] in CPython 3.12 and later. *)
Definition cpython_hash_None : Z := 4238894112.

Module Sample.

Definition layer (self : positive) (uid0 op0 : string) (shape : pyval)
    : Node.t :=
  {| Node.addr := self;
     Node.id := UStr uid0;
     Node.name := PyNone;
     Node.op := PyStr op0;
     Node.repeat := 1;
     Node.output_shape := shape;
     Node.params := ∅;
     Node._caption := EmptyString |}.

Definition A : Node.t := layer 1 "A" "conv" PyNone.
Definition B : Node.t := layer 2 "B" "relu" PyNone.
Definition C : Node.t := layer 3 "C" "pool" PyNone.
Definition fused : Node.t :=
  layer 4 "fused" "conv_relu_pool"
    (PyTuple [PyInt 1; PyInt 64; PyInt 112; PyInt 112]).

(** The chain A -> B -> C, built with [add_node] and [add_edge]. *)
Definition chain : Graph.t :=
  Graph.state_after
    (Graph.add_node cpython_hash_None A;;
     Graph.add_node cpython_hash_None B;;
     Graph.add_node cpython_hash_None C;;
     Graph.add_edge cpython_hash_None (Some A) (Some B) PyNone;;
     Graph.add_edge cpython_hash_None (Some B) (Some C) PyNone)
    Graph.__init__.

(** Two parallel copies of the edge A -> B, stored with
    [add_edge_by_id]. *)
Definition doubled : Graph.t :=
  Graph.state_after
    (Graph.add_node cpython_hash_None A;;
     Graph.add_node cpython_hash_None B;;
     Graph.add_edge_by_id (UStr "A") (UStr "B") PyNone;;
     Graph.add_edge_by_id (UStr "A") (UStr "B") PyNone)
    Graph.__init__.

(** Two nodes that no graph above stores. *)
Definition X : Node.t := layer 7 "X" "add" (PyTuple [PyInt 1; PyInt 64]).
Definition Y : Node.t := layer 8 "Y" "add" PyNone.

(** A parent with two children: P -> N and P -> S. *)
Definition P : Node.t :=
  layer 5 "P" "input" (PyTuple [PyInt 1; PyInt 3; PyInt 224; PyInt 224]).
Definition N : Node.t := layer 6 "N" "conv" PyNone.
Definition S : Node.t := layer 10 "S" "conv" PyNone.

Definition fanout : Graph.t :=
  Graph.state_after
    (Graph.add_node cpython_hash_None P;;
     Graph.add_node cpython_hash_None N;;
     Graph.add_node cpython_hash_None S;;
     Graph.add_edge cpython_hash_None (Some P) (Some N) PyNone;;
     Graph.add_edge cpython_hash_None (Some P) (Some S) PyNone)
    Graph.__init__.

(** The same graph with a second edge P -> N, under another label. *)
Definition parallel : Graph.t :=
  Graph.state_after
    (Graph.add_edge cpython_hash_None (Some P) (Some N)
       (Node.output_shape P))
    fanout.

(** The chain A -> B -> C between the input P and the consumer S. *)
Definition pipeline : Graph.t :=
  Graph.state_after
    (Graph.add_node cpython_hash_None P;;
     Graph.add_node cpython_hash_None A;;
     Graph.add_node cpython_hash_None B;;
     Graph.add_node cpython_hash_None C;;
     Graph.add_node cpython_hash_None S;;
     Graph.add_edge cpython_hash_None (Some P) (Some A) (Node.output_shape P);;
     Graph.add_edge cpython_hash_None (Some A) (Some B) PyNone;;
     Graph.add_edge cpython_hash_None (Some B) (Some C) PyNone;;
     Graph.add_edge cpython_hash_None (Some C) (Some S) PyNone)
    Graph.__init__.

(** Another node object that carries the identifier of N. *)
Definition N_again : Node.t := layer 11 "N" "conv_bn" PyNone.

(** The fan-out graph with one more edge into N, from an identifier that
    is not a key of the node mapping. *)
Definition dangling : Graph.t :=
  Graph.state_after (Graph.add_edge_by_id (UStr "X") (UStr "N") PyNone)
    fanout.

(** The node N alone, with an edge from an identifier that is not a key of
    the node mapping. *)
Definition orphan : Graph.t :=
  Graph.state_after
    (Graph.add_node cpython_hash_None N;;
     Graph.add_edge_by_id (UStr "X") (UStr "N") PyNone)
    Graph.__init__.

(** A pattern that matches a single node whose operation is [relu]; for any
    other node it reports no match and the node itself as [following]. *)
Definition relu_pattern (g : Graph.t) (n : Node.t)
    : list Node.t * option Node.t :=
  if decide (Node.op n = PyStr "relu") then ([n], None) else ([], Some n).

End Sample.

(** * Properties *)

(** Closes a decidable goal about concrete data by evaluation. *)
Ltac by_computation := apply (bool_decide_unpack _); vm_compute; exact I.

(** ** The monad and the loops *)

Lemma bind_unfold {A B : Type} (m : Graph.M A) (f : A → Graph.M B) g :
  (m ≫= f) g =
  match m g with
  | (inl e, g') => (inl e, g')
  | (inr x, g') => f x g'
  end.
Proof. reflexivity. Qed.

Lemma for_each_nil {A : Type} (body : A → Graph.M unit) g :
  Graph.for_each [] body g = (inr (), g).
Proof. reflexivity. Qed.

Lemma for_each_cons {A : Type} (x : A) xs (body : A → Graph.M unit) g :
  Graph.for_each (x :: xs) body g =
  match body x g with
  | (inl e, g') => (inl e, g')
  | (inr _, g') => Graph.for_each xs body g'
  end.
Proof. reflexivity. Qed.

Lemma for_each_app {A : Type} (xs ys : list A) (body : A → Graph.M unit) g :
  Graph.for_each (xs ++ ys) body g =
  match Graph.for_each xs body g with
  | (inl e, g') => (inl e, g')
  | (inr _, g') => Graph.for_each ys body g'
  end.
Proof.
  revert g. induction xs as [|x xs IH]; intros g; [reflexivity|].
  cbn [app Graph.for_each]. rewrite !bind_unfold.
  destruct (body x g) as [[e|[]] g1]; [reflexivity|]. apply IH.
Qed.

(** ** remove *)

Section remove_properties.

Variable hash_None : Z.

Abbreviation remove := (Graph.remove hash_None).

Lemma remove_cons n ns g :
  remove (Many (n :: ns)) g =
  match Graph.nodes g !! Node.id n with
  | Some _ =>
      remove (Many ns)
        {| Graph.nodes := delete (Node.id n) (Graph.nodes g);
           Graph.edges := untouched (Node.id n) (Graph.edges g) |}
  | None =>
      (inl (KeyError (Node.id n)),
       {| Graph.nodes := Graph.nodes g;
          Graph.edges := untouched (Node.id n) (Graph.edges g) |})
  end.
Proof.
  unfold Graph.remove. cbn [as_list Graph.for_each].
  rewrite !bind_unfold. cbn. unfold Graph.del_node. cbn.
  destruct (Graph.nodes g !! Node.id n); reflexivity.
Qed.

Lemma remove_nil g : remove (Many []) g = (inr (), g).
Proof. reflexivity. Qed.

Lemma remove_one n g : remove (One n) g = remove (Many [n]) g.
Proof. reflexivity. Qed.


Lemma untouched_untouched_all k ks (es : list edge) :
  untouched_all ks (untouched k es) = untouched_all (k :: ks) es.
Proof.
  rewrite list_filter_filter. apply list_filter_iff.
  intros [[s d] l]; cbn. rewrite !not_elem_of_cons. tauto.
Qed.

Lemma untouched_all_nil (es : list edge) : untouched_all [] es = es.
Proof.
  induction es as [|e es IH]; [reflexivity|].
  rewrite filter_cons_True; [by rewrite IH|].
  split; apply not_elem_of_nil.
Qed.

(** Removing a sequence of stored nodes with distinct identifiers returns
    normally; it deletes their keys and the edges that touch them. *)
Lemma remove_many_ok ns : ∀ g,
  NoDup (Node.id <$> ns) →
  (∀ n, n ∈ ns → is_Some (Graph.nodes g !! Node.id n)) →
  ∃ g', remove (Many ns) g = (inr (), g')
    ∧ (∀ k, Graph.nodes g' !! k =
            if decide (k ∈ Node.id <$> ns) then None else Graph.nodes g !! k)
    ∧ Graph.edges g' = untouched_all (Node.id <$> ns) (Graph.edges g).
Proof.
  induction ns as [|n ns IH]; intros g Hnd Hin.
  - exists g. split; [reflexivity|]. split.
    + intros k. case_decide as Hk; [|reflexivity].
      by apply elem_of_nil in Hk.
    + by rewrite untouched_all_nil.
  - rewrite fmap_cons in Hnd. apply NoDup_cons in Hnd as [Hn Hnd].
    rewrite remove_cons.
    destruct (Hin n) as [x Hx]; [apply elem_of_cons; by left|].
    rewrite Hx.
    destruct (IH {| Graph.nodes := delete (Node.id n) (Graph.nodes g);
                    Graph.edges := untouched (Node.id n) (Graph.edges g) |})
      as (g' & Hrun & Hnodes & Hedges); [done| |].
    { intros m Hm. cbn. rewrite lookup_delete_ne.
      - apply Hin, elem_of_cons. by right.
      - intros Heq. apply Hn. rewrite Heq. by apply list_elem_of_fmap_2. }
    exists g'. split; [done|]. split.
    + intros k. rewrite Hnodes. cbn [Graph.nodes]. rewrite fmap_cons.
      destruct (decide (k = Node.id n)) as [->|Hne].
      * rewrite lookup_delete_eq.
        rewrite (decide_True (P := Node.id n ∈ Node.id n :: _));
          [by case_decide|apply elem_of_cons; by left].
      * rewrite lookup_delete_ne by done.
        destruct (decide (k ∈ Node.id <$> ns)) as [Hk|Hk].
        -- rewrite decide_True; [done|apply elem_of_cons; by right].
        -- rewrite decide_False; [done|].
           intros [?|?]%elem_of_cons; done.
    + rewrite Hedges. cbn [Graph.edges]. by rewrite untouched_untouched_all.
Qed.


Lemma remove_app xs ys g :
  remove (Many (xs ++ ys)) g =
  match remove (Many xs) g with
  | (inl e, g') => (inl e, g')
  | (inr _, g') => remove (Many ys) g'
  end.
Proof. unfold Graph.remove. cbn [as_list]. apply for_each_app. Qed.

Lemma untouched_all_untouched k ks (es : list edge) :
  untouched k (untouched_all ks es) = untouched_all (ks ++ [k]) es.
Proof.
  rewrite list_filter_filter. apply list_filter_iff.
  intros [[s d] l]; cbn. rewrite !elem_of_app, !list_elem_of_singleton. tauto.
Qed.

Lemma filter_none {A : Type} (P : A → Prop) `{!∀ x, Decision (P x)}
    (l : list A) :
  (∀ x, x ∈ l → ¬ P x) → filter P l = [].
Proof.
  induction l as [|x l IH]; intros Hl; [reflexivity|].
  rewrite filter_cons_False by (apply Hl, elem_of_cons; by left).
  apply IH. intros y Hy. apply Hl, elem_of_cons. by right.
Qed.

Lemma incoming_no_edge g n :
  (∀ e : edge, e ∈ Graph.edges g → e.1.2 ≠ Node.id n) →
  Graph.incoming hash_None g n = [].
Proof.
  intros H. unfold Graph.incoming. by rewrite filter_none.
Qed.

Lemma outgoing_no_edge g ns :
  (∀ e : edge, e ∈ Graph.edges g →
     e.1.1 ∉ Graph.id hash_None <$> as_list ns) →
  Graph.outgoing hash_None g ns = [].
Proof.
  intros H. unfold Graph.outgoing. rewrite filter_none by done.
  cbn. apply elements_empty.
Qed.


Lemma remove_one_present n g :
  is_Some (Graph.nodes g !! Node.id n) →
  remove (One n) g =
  (inr (), {| Graph.nodes := delete (Node.id n) (Graph.nodes g);
              Graph.edges := untouched (Node.id n) (Graph.edges g) |}).
Proof.
  intros [x Hx]. rewrite remove_one, remove_cons, Hx. apply remove_nil.
Qed.

Lemma remove_one_absent n g :
  Graph.nodes g !! Node.id n = None →
  remove (One n) g =
  (inl (KeyError (Node.id n)),
   {| Graph.nodes := Graph.nodes g;
      Graph.edges := untouched (Node.id n) (Graph.edges g) |}).
Proof. intros Hx. by rewrite remove_one, remove_cons, Hx. Qed.

(** C5. For a node [n] whose identifier is stored in the graph, [remove(n)]
    returns normally, deletes the key of [n] from the node mapping and
    deletes exactly the edges whose source or target is that identifier;
    afterwards [incoming(n)] and [outgoing(n)] are empty and [graph[n.id]]
    is [None].  For a list of stored nodes with distinct identifiers the
    same holds of every node of the list: all their keys are deleted, the
    edges that touch none of them are kept, in order, and no other key or
    edge changes. *)
Theorem remove_deletes_node_and_edges :
  (∀ g n,
     is_Some (Graph.nodes g !! Node.id n) →
     ∃ g', remove (One n) g = (inr (), g')
       ∧ Graph.nodes g' = delete (Node.id n) (Graph.nodes g)
       ∧ Graph.edges g' = untouched (Node.id n) (Graph.edges g)
       ∧ (∀ e : edge, e ∈ Graph.edges g' →
            e.1.1 ≠ Node.id n ∧ e.1.2 ≠ Node.id n)
       ∧ Graph.incoming hash_None g' n = []
       ∧ Graph.outgoing hash_None g' (One (Some n)) = []
       ∧ Graph.getitem g' (Node.id n) = None)
  ∧ (∀ g ns,
     NoDup (Node.id <$> ns) →
     (∀ n, n ∈ ns → is_Some (Graph.nodes g !! Node.id n)) →
     ∃ g', remove (Many ns) g = (inr (), g')
       ∧ (∀ k, Graph.nodes g' !! k =
               if decide (k ∈ Node.id <$> ns) then None
               else Graph.nodes g !! k)
       ∧ Graph.edges g' = untouched_all (Node.id <$> ns) (Graph.edges g)
       ∧ (∀ n, n ∈ ns →
            Graph.incoming hash_None g' n = []
            ∧ Graph.outgoing hash_None g' (One (Some n)) = []
            ∧ Graph.getitem g' (Node.id n) = None)).
Proof.
  split.
  - intros g n Hn. eexists. split; [by apply remove_one_present|].
    cbn [Graph.nodes Graph.edges].
    assert (Hgone : ∀ e : edge,
               e ∈ untouched (Node.id n) (Graph.edges g) →
               e.1.1 ≠ Node.id n ∧ e.1.2 ≠ Node.id n).
    { intros e He. by apply list_elem_of_filter in He as [? _]. }
    repeat split; try (by apply Hgone).
    + apply incoming_no_edge. intros e He. by apply Hgone in He as [_ ?].
    + apply outgoing_no_edge. intros e He. cbn.
      rewrite list_elem_of_singleton. by apply Hgone in He as [? _].
    + unfold Graph.getitem. cbn. apply lookup_delete_eq.
  - intros g ns Hnd Hin.
    destruct (remove_many_ok ns g Hnd Hin) as (g' & Hrun & Hnodes & Hedges).
    exists g'. repeat split; try done.
    + apply incoming_no_edge. intros e He. rewrite Hedges in He.
      apply list_elem_of_filter in He as [[_ Hd] _].
      intros Heq. apply Hd. rewrite Heq. by apply list_elem_of_fmap_2.
    + apply outgoing_no_edge. intros e He. rewrite Hedges in He.
      apply list_elem_of_filter in He as [[Hs _] _]. cbn.
      rewrite list_elem_of_singleton.
      intros Heq. apply Hs. rewrite Heq. by apply list_elem_of_fmap_2.
    + unfold Graph.getitem. rewrite Hnodes.
      rewrite decide_True; [done|]. by apply list_elem_of_fmap_2.
Qed.

(** C7. Calling [remove] on a node whose identifier is not a key of the node
    mapping raises [KeyError] for that identifier; the call does not return
    normally. *)
Theorem remove_absent_raises_KeyError g n :
  Graph.nodes g !! Node.id n = None →
  Graph.raises (remove (One n)) g (KeyError (Node.id n))
  ∧ Graph.raises (remove (Many [n])) g (KeyError (Node.id n))
  ∧ ¬ Graph.returns (remove (One n)) g.
Proof.
  intros Hn. unfold Graph.raises, Graph.returns.
  rewrite <- remove_one, remove_one_absent by done. cbn.
  repeat split. intros [x Hx]. discriminate.
Qed.

(** C8. [remove] is not atomic.  Called with a node whose identifier is not
    a key of the node mapping, it raises [KeyError] in a graph from which the
    edges that touch that identifier are already deleted.  Called with a
    list, the nodes before the first failing one stay removed: their keys
    and the edges that touch them, or the failing identifier, are gone when
    the error reaches the caller. *)
Theorem remove_not_atomic :
  (∀ g n,
     Graph.nodes g !! Node.id n = None →
     remove (One n) g =
     (inl (KeyError (Node.id n)),
      {| Graph.nodes := Graph.nodes g;
         Graph.edges := untouched (Node.id n) (Graph.edges g) |}))
  ∧ (∀ g pre n post,
     NoDup (Node.id <$> pre) →
     (∀ m, m ∈ pre → is_Some (Graph.nodes g !! Node.id m)) →
     Graph.nodes g !! Node.id n = None ∨ Node.id n ∈ Node.id <$> pre →
     ∃ g', remove (Many (pre ++ n :: post)) g =
             (inl (KeyError (Node.id n)), g')
       ∧ (∀ k, Graph.nodes g' !! k =
               if decide (k ∈ Node.id <$> pre) then None
               else Graph.nodes g !! k)
       ∧ Graph.edges g' =
           untouched_all (Node.id <$> pre ++ [n]) (Graph.edges g)).
Proof.
  split; [intros g n; apply remove_one_absent|].
  intros g pre n post Hnd Hin Hn.
  destruct (remove_many_ok pre g Hnd Hin) as (g1 & Hrun & Hnodes & Hedges).
  assert (Hn1 : Graph.nodes g1 !! Node.id n = None).
  { rewrite Hnodes. case_decide; [done|]. by destruct Hn. }
  exists {| Graph.nodes := Graph.nodes g1;
            Graph.edges := untouched (Node.id n) (Graph.edges g1) |}.
  split; [|split].
  - by rewrite remove_app, Hrun, remove_cons, Hn1.
  - done.
  - cbn [Graph.edges]. rewrite Hedges, untouched_all_untouched.
    by rewrite fmap_app.
Qed.

End remove_properties.

(** ** remove on the sample chain *)

Lemma remove_deletes_node_and_edges_witness :
  ∃ g', Graph.remove cpython_hash_None (Many [Sample.A; Sample.B]) Sample.chain
        = (inr (), g')
    ∧ (∀ k, Graph.nodes g' !! k =
            if decide (k ∈ Node.id <$> [Sample.A; Sample.B]) then None
            else Graph.nodes Sample.chain !! k)
    ∧ Graph.edges g' =
        untouched_all (Node.id <$> [Sample.A; Sample.B])
          (Graph.edges Sample.chain)
    ∧ (∀ n, n ∈ [Sample.A; Sample.B] →
         Graph.incoming cpython_hash_None g' n = []
         ∧ Graph.outgoing cpython_hash_None g' (One (Some n)) = []
         ∧ Graph.getitem g' (Node.id n) = None).
Proof.
  apply (proj2 (remove_deletes_node_and_edges cpython_hash_None)).
  - by_computation.
  - intros n Hn. apply elem_of_cons in Hn as [->|Hn].
    + vm_compute. eauto.
    + apply list_elem_of_singleton in Hn as ->. vm_compute. eauto.
Defined.

Lemma remove_absent_raises_KeyError_witness :
  Graph.raises (Graph.remove cpython_hash_None (One Sample.fused))
    Sample.chain (KeyError (UStr "fused")).
Proof.
  apply (remove_absent_raises_KeyError cpython_hash_None
           Sample.chain Sample.fused).
  vm_compute. reflexivity.
Defined.

Lemma remove_not_atomic_witness :
  ∃ g', Graph.remove cpython_hash_None
          (Many ([Sample.A] ++ Sample.fused :: [Sample.C])) Sample.chain
        = (inl (KeyError (UStr "fused")), g')
    ∧ (∀ k, Graph.nodes g' !! k =
            if decide (k ∈ Node.id <$> [Sample.A]) then None
            else Graph.nodes Sample.chain !! k)
    ∧ Graph.edges g' =
        untouched_all (Node.id <$> [Sample.A] ++ [Sample.fused])
          (Graph.edges Sample.chain).
Proof.
  apply (proj2 (remove_not_atomic cpython_hash_None)).
  - by_computation.
  - intros n Hn. apply list_elem_of_singleton in Hn as ->. vm_compute. eauto.
  - left. vm_compute. reflexivity.
Defined.

(** ** Topology queries *)

Section query_properties.

Variable hash_None : Z.

Lemma elem_of_incoming g n k :
  k ∈ Graph.incoming hash_None g n ↔
  ∃ l, (k, Node.id n, l) ∈ Graph.edges g.
Proof.
  unfold Graph.incoming. rewrite list_elem_of_fmap. split.
  - intros ([[s d] l] & -> & He). apply list_elem_of_filter in He as [Hd He].
    cbn in *. subst d. by exists l.
  - intros [l He]. exists (k, Node.id n, l). split; [done|].
    by apply list_elem_of_filter.
Qed.

Lemma elem_of_outgoing g ns k :
  k ∈ Graph.outgoing hash_None g ns ↔
  ∃ s l, s ∈ Graph.id hash_None <$> as_list ns ∧ (s, k, l) ∈ Graph.edges g.
Proof.
  unfold Graph.outgoing. rewrite elem_of_elements, elem_of_list_to_set.
  rewrite list_elem_of_fmap. split.
  - intros ([[s d] l] & -> & He). apply list_elem_of_filter in He as [Hs He].
    by exists s, l.
  - intros (s & l & Hs & He). exists (s, k, l). split; [done|].
    by apply list_elem_of_filter.
Qed.

Lemma outgoing_NoDup g ns : NoDup (Graph.outgoing hash_None g ns).
Proof. apply NoDup_elements. Qed.

End query_properties.

(** ** add_edge and add_edge_by_id *)

Section add_edge_properties.

Variable hash_None : Z.

Abbreviation add_edge := (Graph.add_edge hash_None).
Abbreviation gid := (Graph.id hash_None).

Lemma add_edge_present n1 n2 l g :
  (gid n1, gid n2, l) ∈ Graph.edges g →
  add_edge n1 n2 l g = (inr (), g).
Proof.
  intros He. unfold Graph.add_edge, Graph.modify. by rewrite decide_True.
Qed.

Lemma add_edge_fresh n1 n2 l g :
  (gid n1, gid n2, l) ∉ Graph.edges g →
  add_edge n1 n2 l g =
  (inr (), {| Graph.nodes := Graph.nodes g;
              Graph.edges := Graph.edges g ++ [(gid n1, gid n2, l)] |}).
Proof.
  intros He. unfold Graph.add_edge, Graph.modify. by rewrite decide_False.
Qed.

Lemma add_edge_returns n1 n2 l g :
  ∃ g', add_edge n1 n2 l g = (inr (), g')
    ∧ Graph.nodes g' = Graph.nodes g
    ∧ (gid n1, gid n2, l) ∈ Graph.edges g'
    ∧ ∃ extra, Graph.edges g' = Graph.edges g ++ extra
        ∧ ∀ e, e ∈ extra → e = (gid n1, gid n2, l).
Proof.
  destruct (decide ((gid n1, gid n2, l) ∈ Graph.edges g)) as [He|He].
  - exists g. rewrite add_edge_present by done. repeat split; try done.
    exists []. split; [by rewrite app_nil_r|]. by intros e ?%elem_of_nil.
  - eexists. rewrite add_edge_fresh by done. split; [done|]. cbn.
    repeat split.
    + apply elem_of_app. right. by apply list_elem_of_singleton.
    + eexists. split; [done|]. by intros e ?%list_elem_of_singleton.
Qed.

Lemma copies_present (e : edge) es : e ∈ es → (1 ≤ copies e es)%nat.
Proof.
  intros He. assert (H : e ∈ filter (λ x : edge, x = e) es).
  { by apply list_elem_of_filter. }
  destruct (filter (λ x : edge, x = e) es); [by apply elem_of_nil in H|].
  cbn. lia.
Qed.

Lemma copies_absent (e : edge) es : e ∉ es → copies e es = 0%nat.
Proof.
  intros He. rewrite filter_none; [done|]. by intros x Hx ->.
Qed.


(** C3, amended.  The second of two [add_edge] calls with the same
    (source id, target id, label) triple changes nothing.  After them the
    edge list holds as many copies of the triple as before, and one copy if
    it held none: exactly one copy whenever the triple occurred at most once
    before the calls.  A later call with the same endpoints and another
    label appends that second, distinct edge at the end of the list, unless
    the edge with that label is already present. *)
Theorem add_edge_idempotent g n1 n2 l :
  Graph.state_after (add_edge n1 n2 l;; add_edge n1 n2 l) g
    = Graph.state_after (add_edge n1 n2 l) g
  ∧ copies (gid n1, gid n2, l)
      (Graph.edges (Graph.state_after (add_edge n1 n2 l;; add_edge n1 n2 l) g))
    = Nat.max 1 (copies (gid n1, gid n2, l) (Graph.edges g))
  ∧ ((copies (gid n1, gid n2, l) (Graph.edges g) ≤ 1)%nat →
     copies (gid n1, gid n2, l)
       (Graph.edges
          (Graph.state_after (add_edge n1 n2 l;; add_edge n1 n2 l) g))
     = 1%nat)
  ∧ (∀ l', l' ≠ l →
     (gid n1, gid n2, l') ∉ Graph.edges g →
     Graph.edges (Graph.state_after (add_edge n1 n2 l;; add_edge n1 n2 l') g)
       = Graph.edges (Graph.state_after (add_edge n1 n2 l) g)
           ++ [(gid n1, gid n2, l')]
     ∧ (gid n1, gid n2, l) ≠ (gid n1, gid n2, l')).
Proof.
  unfold Graph.state_after. rewrite !bind_unfold.
  assert (Hcount :
    copies (gid n1, gid n2, l) (Graph.edges (add_edge n1 n2 l g).2)
    = Nat.max 1 (copies (gid n1, gid n2, l) (Graph.edges g))).
  { destruct (decide ((gid n1, gid n2, l) ∈ Graph.edges g)) as [He|He].
    - rewrite add_edge_present by done. cbn [snd].
      apply copies_present in He. lia.
    - rewrite add_edge_fresh by done. cbn [snd Graph.edges].
      rewrite filter_app, length_app, (copies_absent _ _ He).
      rewrite filter_cons_True by done. reflexivity. }
  destruct (add_edge_returns n1 n2 l g)
    as (g1 & Hrun & Hnodes & Hin & extra & Hedges & Hextra).
  rewrite Hrun in *. cbn [snd] in *. cbn beta iota.
  rewrite (add_edge_present _ _ _ g1 Hin). cbn [snd].
  split; [done|]. split; [done|]. split; [lia|].
  intros l' Hl' Hfresh. split; [|congruence].
  rewrite bind_unfold, Hrun. cbn beta iota.
  rewrite add_edge_fresh; [done|].
  rewrite Hedges. intros [?|Hx]%elem_of_app; [done|].
  apply Hextra in Hx. congruence.
Qed.

(** Edge lists built with [add_edge] alone hold no duplicate. *)
Lemma add_edge_NoDup g n1 n2 l :
  NoDup (Graph.edges g) →
  NoDup (Graph.edges (Graph.state_after (add_edge n1 n2 l) g)).
Proof.
  intros Hnd. unfold Graph.state_after.
  destruct (decide ((gid n1, gid n2, l) ∈ Graph.edges g)) as [He|He].
  - by rewrite add_edge_present.
  - rewrite add_edge_fresh by done. cbn. apply NoDup_app.
    split; [done|]. split; [|apply NoDup_singleton].
    by intros e ? ->%list_elem_of_singleton.
Qed.

(** C10. Neither [add_edge] nor [add_edge_by_id] looks at the node mapping.
    With endpoints whose identifiers are not keys of the mapping, the call
    returns normally and leaves the mapping as it was; the edge is in the
    edge list, [outgoing] of the source reports the target, [incoming] of the
    target reports the source, and indexing the graph with either identifier
    gives [None]. *)
Theorem edges_accept_unknown_endpoints g :
  (∀ n1 n2 l,
     Graph.nodes g !! Node.id n1 = None →
     Graph.nodes g !! Node.id n2 = None →
     ∃ g', add_edge (Some n1) (Some n2) l g = (inr (), g')
       ∧ Graph.nodes g' = Graph.nodes g
       ∧ (Node.id n1, Node.id n2, l) ∈ Graph.edges g'
       ∧ Node.id n2 ∈ Graph.outgoing hash_None g' (One (Some n1))
       ∧ Node.id n1 ∈ Graph.incoming hash_None g' n2
       ∧ Graph.getitem g' (Node.id n1) = None
       ∧ Graph.getitem g' (Node.id n2) = None
       ∧ Graph.getitem_list g' [Node.id n1; Node.id n2] = [None; None])
  ∧ (∀ v1 v2 l,
     Graph.nodes g !! v1 = None →
     Graph.nodes g !! v2 = None →
     ∃ g', Graph.add_edge_by_id v1 v2 l g = (inr (), g')
       ∧ Graph.nodes g' = Graph.nodes g
       ∧ Graph.edges g' = Graph.edges g ++ [(v1, v2, l)]
       ∧ (∀ n, Node.id n = v1 →
            v2 ∈ Graph.outgoing hash_None g' (One (Some n)))
       ∧ (∀ n, Node.id n = v2 → v1 ∈ Graph.incoming hash_None g' n)
       ∧ Graph.getitem g' v1 = None
       ∧ Graph.getitem g' v2 = None
       ∧ Graph.getitem_list g' [v1; v2] = [None; None]).
Proof.
  split.
  - intros n1 n2 l H1 H2.
    destruct (add_edge_returns (Some n1) (Some n2) l g)
      as (g' & Hrun & Hnodes & Hin & _).
    cbn [Graph.id] in Hin.
    exists g'. unfold Graph.getitem, Graph.getitem_list. cbn [fmap list_fmap].
    rewrite Hnodes, H1, H2. repeat split; try done.
    + apply elem_of_outgoing. exists (Node.id n1), l. split; [|done].
      cbn. by apply list_elem_of_singleton.
    + apply elem_of_incoming. by exists l.
  - intros v1 v2 l H1 H2. eexists. split; [reflexivity|].
    unfold Graph.getitem, Graph.getitem_list.
    cbn [Graph.nodes Graph.edges fmap list_fmap].
    rewrite H1, H2. repeat split; try done.
    + intros n <-. apply elem_of_outgoing. exists (Node.id n), l.
      split; [cbn; by apply list_elem_of_singleton|].
      apply elem_of_app. right. by apply list_elem_of_singleton.
    + intros n <-. apply elem_of_incoming. exists l.
      apply elem_of_app. right. by apply list_elem_of_singleton.
Qed.

End add_edge_properties.

(** ** add_edge on the sample graphs *)

(** C3 as stated fails on a graph that already holds two copies of the
    edge: two [add_edge] calls with that triple leave two copies, not
    one. *)
Lemma add_edge_twice_one_copy_counterexample :
  copies (UStr "A", UStr "B", PyNone)
    (Graph.edges
       (Graph.state_after
          (Graph.add_edge cpython_hash_None
             (Some Sample.A) (Some Sample.B) PyNone;;
           Graph.add_edge cpython_hash_None
             (Some Sample.A) (Some Sample.B) PyNone)
          Sample.doubled))
  = 2%nat.
Proof. vm_compute. reflexivity. Qed.

Lemma add_edge_idempotent_witness :
  copies (UStr "A", UStr "C", PyNone)
    (Graph.edges
       (Graph.state_after
          (Graph.add_edge cpython_hash_None
             (Some Sample.A) (Some Sample.C) PyNone;;
           Graph.add_edge cpython_hash_None
             (Some Sample.A) (Some Sample.C) PyNone)
          Sample.chain))
  = 1%nat
  ∧ Graph.edges
      (Graph.state_after
         (Graph.add_edge cpython_hash_None
            (Some Sample.A) (Some Sample.C) PyNone;;
          Graph.add_edge cpython_hash_None
            (Some Sample.A) (Some Sample.C) (PyTuple [PyInt 3]))
         Sample.chain)
    = Graph.edges
        (Graph.state_after
           (Graph.add_edge cpython_hash_None
              (Some Sample.A) (Some Sample.C) PyNone)
           Sample.chain)
      ++ [(UStr "A", UStr "C", PyTuple [PyInt 3])].
Proof.
  destruct (add_edge_idempotent cpython_hash_None Sample.chain
              (Some Sample.A) (Some Sample.C) PyNone)
    as (_ & _ & Hone & Hother).
  split.
  - apply Hone. vm_compute. lia.
  - apply Hother; [discriminate|by_computation].
Defined.

Lemma edges_accept_unknown_endpoints_witness :
  ∃ g', Graph.add_edge cpython_hash_None (Some Sample.X) (Some Sample.Y)
          PyNone Sample.chain = (inr (), g')
    ∧ Graph.nodes g' = Graph.nodes Sample.chain
    ∧ (UStr "X", UStr "Y", PyNone) ∈ Graph.edges g'
    ∧ UStr "Y" ∈ Graph.outgoing cpython_hash_None g' (One (Some Sample.X))
    ∧ UStr "X" ∈ Graph.incoming cpython_hash_None g' Sample.Y
    ∧ Graph.getitem g' (UStr "X") = None
    ∧ Graph.getitem g' (UStr "Y") = None
    ∧ Graph.getitem_list g' [UStr "X"; UStr "Y"] = [None; None].
Proof.
  apply (proj1 (edges_accept_unknown_endpoints cpython_hash_None
                  Sample.chain) Sample.X Sample.Y PyNone).
  - vm_compute. reflexivity.
  - vm_compute. reflexivity.
Defined.

(** ** Node construction *)

(** C4, amended.  Constructing a node with a tuple or a list as
    [output_shape] succeeds and stores it.  So does constructing it with a
    value that is false in a condition ([None], [0], the empty string), which
    the test [if output_shape:] lets through unchecked.  Constructing it with
    a true value that is neither a tuple nor a list fails with an
    [AssertionError] whose message says that [output_shape] must be a tuple
    or list and names the class received. *)
Theorem node_init_output_shape self uid0 name0 op0 shape params0 :
  (is_tuple_or_list shape = true →
   ∃ n, Node.__init__ self uid0 name0 op0 shape params0 = inr n
     ∧ Node.output_shape n = shape ∧ Node.id n = uid0)
  ∧ (truthy shape = false →
     ∃ n, Node.__init__ self uid0 name0 op0 shape params0 = inr n
       ∧ Node.output_shape n = shape ∧ Node.id n = uid0)
  ∧ (truthy shape = true →
     is_tuple_or_list shape = false →
     Node.__init__ self uid0 name0 op0 shape params0
     = inl (AssertionError
              ("output_shape must be a tuple or list but received "
                 +:+ type_repr shape))).
Proof.
  unfold Node.__init__. repeat split.
  - intros ->. destruct (truthy shape); eexists; by repeat split.
  - intros ->. eexists; by repeat split.
  - by intros -> ->.
Qed.

(** ** siblings *)

Section siblings_properties.

Variable hash_None : Z.

(** C6, amended.  When [incoming(n)] yields exactly one identifier, that
    identifier is the key of a stored node with that identifier (the
    parent), and [n] is stored in the graph, [siblings(n)] is
    [graph[outgoing(parent)]]: the list of the stored objects for the
    parent's outgoing identifiers.  The identifier of [n] is among these
    identifiers and [n] itself is in the result.  When [incoming(n)] yields
    no identifier or several, [siblings(n)] is the one-element list
    [[n]]. *)
Theorem siblings_single_parent :
  (∀ g n p parent,
     Graph.incoming hash_None g n = [p] →
     Graph.nodes g !! p = Some parent →
     Node.id parent = p →
     Graph.nodes g !! Node.id n = Some n →
     Graph.siblings hash_None g n
       = Graph.getitem_list g
           (Graph.outgoing hash_None g (One (Some parent)))
     ∧ Node.id n ∈ Graph.outgoing hash_None g (One (Some parent))
     ∧ Some n ∈ Graph.siblings hash_None g n)
  ∧ (∀ g n,
     length (Graph.incoming hash_None g n) ≠ 1%nat →
     Graph.siblings hash_None g n = [Some n]).
Proof.
  split.
  - intros g n p parent Hinc Hp Hid Hn.
    assert (Hsib : Graph.siblings hash_None g n
                   = Graph.getitem_list g
                       (Graph.outgoing hash_None g (One (Some parent)))).
    { unfold Graph.siblings, Graph.getitem. by rewrite Hinc, Hp. }
    assert (Hout : Node.id n
                   ∈ Graph.outgoing hash_None g (One (Some parent))).
    { assert (Hpin : p ∈ Graph.incoming hash_None g n).
      { rewrite Hinc. by apply list_elem_of_singleton. }
      apply elem_of_incoming in Hpin as [l Hl].
      apply elem_of_outgoing. exists p, l. split; [|done].
      cbn. rewrite Hid. by apply list_elem_of_singleton. }
    split; [done|]. split; [done|].
    rewrite Hsib. unfold Graph.getitem_list.
    apply list_elem_of_fmap. by exists (Node.id n).
  - intros g n Hlen. unfold Graph.siblings.
    by destruct (Graph.incoming hash_None g n) as [|k [|k' ks]].
Qed.

(** C9. When every edge into [n] comes from the one parent [p] and two or
    more parallel edges lead from [p] to [n], [incoming(n)] repeats [p] once
    per edge, the test [len(incoming) == 1] fails, and [siblings(n)] is
    [[n]] alone. *)
Theorem siblings_parallel_edges g n p :
  (∀ e : edge, e ∈ Graph.edges g → e.1.2 = Node.id n → e.1.1 = p) →
  (2 ≤ length (filter (λ e : edge, e.1.1 = p ∧ e.1.2 = Node.id n)
                 (Graph.edges g)))%nat →
  Graph.incoming hash_None g n
    = replicate
        (length (filter (λ e : edge, e.1.1 = p ∧ e.1.2 = Node.id n)
                   (Graph.edges g)))
        p
  ∧ Graph.siblings hash_None g n = [Some n].
Proof.
  intros Honly Htwo.
  assert (Hfilter :
    filter (λ e : edge, e.1.2 = Node.id n) (Graph.edges g)
    = filter (λ e : edge, e.1.1 = p ∧ e.1.2 = Node.id n) (Graph.edges g)).
  { revert Honly. generalize (Graph.edges g) as es.
    induction es as [|e es IH]; intros Honly; [reflexivity|].
    assert (Hes : ∀ x : edge, x ∈ es → x.1.2 = Node.id n → x.1.1 = p).
    { intros x Hx. apply Honly, elem_of_cons. by right. }
    destruct (decide (e.1.2 = Node.id n)) as [Hd|Hd].
    - rewrite (filter_cons_True (λ e : edge, e.1.2 = Node.id n)) by done.
      rewrite (filter_cons_True
                 (λ e : edge, e.1.1 = p ∧ e.1.2 = Node.id n)).
      + by rewrite IH.
      + split; [|done]. apply Honly; [apply elem_of_cons; by left|done].
    - rewrite (filter_cons_False (λ e : edge, e.1.2 = Node.id n)) by done.
      rewrite (filter_cons_False
                 (λ e : edge, e.1.1 = p ∧ e.1.2 = Node.id n)) by tauto.
      by apply IH. }
  assert (Hinc :
    Graph.incoming hash_None g n
    = replicate
        (length (filter (λ e : edge, e.1.1 = p ∧ e.1.2 = Node.id n)
                   (Graph.edges g)))
        p).
  { symmetry. apply replicate_as_Forall. split.
    - unfold Graph.incoming. cbn [Graph.id]. by rewrite length_fmap, Hfilter.
    - apply Forall_forall. intros k Hk.
      apply elem_of_incoming in Hk as [l Hl]. symmetry. by apply (Honly _ Hl). }
  split; [done|].
  unfold Graph.siblings. rewrite Hinc.
  destruct (length _) as [|[|m]]; [lia|lia|reflexivity].
Qed.

End siblings_properties.

(** ** Node construction and siblings on the samples *)

(** C4 as stated fails at the scalar [0]: it is not a sequence, and the
    construction succeeds.  At the scalar [5] the construction fails, with
    an [AssertionError]. *)
Lemma node_init_scalar_counterexample :
  is_tuple_or_list (PyInt 0) = false
  ∧ Node.__init__ 9 (UStr "n") PyNone (PyStr "conv") (PyInt 0) None
    = inr {| Node.addr := 9;
             Node.id := UStr "n";
             Node.name := PyNone;
             Node.op := PyStr "conv";
             Node.repeat := 1;
             Node.output_shape := PyInt 0;
             Node.params := ∅;
             Node._caption := EmptyString |}
  ∧ Node.__init__ 9 (UStr "n") PyNone (PyStr "conv") (PyInt 5) None
    = inl (AssertionError
             "output_shape must be a tuple or list but received <class 'int'>").
Proof. repeat split. Qed.

Lemma node_init_output_shape_witness :
  (∃ n, Node.__init__ 9 (UStr "n") PyNone (PyStr "conv")
          (PyTuple [PyInt 1; PyInt 64]) None = inr n
     ∧ Node.output_shape n = PyTuple [PyInt 1; PyInt 64]
     ∧ Node.id n = UStr "n")
  ∧ (∃ n, Node.__init__ 9 (UStr "n") PyNone (PyStr "conv") PyNone None
          = inr n
     ∧ Node.output_shape n = PyNone ∧ Node.id n = UStr "n")
  ∧ Node.__init__ 9 (UStr "n") PyNone (PyStr "conv") (PyStr "64") None
    = inl (AssertionError
             ("output_shape must be a tuple or list but received "
                +:+ type_repr (PyStr "64"))).
Proof.
  split; [|split].
  - apply (proj1 (node_init_output_shape 9 (UStr "n") PyNone (PyStr "conv")
                    (PyTuple [PyInt 1; PyInt 64]) None)). reflexivity.
  - apply (proj1 (proj2 (node_init_output_shape 9 (UStr "n") PyNone
                           (PyStr "conv") PyNone None))). reflexivity.
  - apply (proj2 (proj2 (node_init_output_shape 9 (UStr "n") PyNone
                           (PyStr "conv") (PyStr "64") None))); reflexivity.
Defined.

(** C6 as stated fails when the single incoming identifier is no key of the
    node mapping.  In the sample, N is stored and has exactly one incoming
    edge, from the identifier X; [siblings(N)] looks up the targets of
    [None] and is empty: it is neither the outgoing set of a parent that
    includes N, nor [[N]]. *)
Lemma siblings_single_incoming_counterexample :
  Graph.nodes Sample.orphan !! Node.id Sample.N = Some Sample.N
  ∧ Graph.incoming cpython_hash_None Sample.orphan Sample.N = [UStr "X"]
  ∧ Graph.siblings cpython_hash_None Sample.orphan Sample.N = []
  ∧ Some Sample.N ∉ Graph.siblings cpython_hash_None Sample.orphan Sample.N.
Proof.
  split; [by vm_compute|]. split; [by vm_compute|].
  split; [by vm_compute|]. by_computation.
Qed.

Lemma siblings_single_parent_witness :
  Graph.siblings cpython_hash_None Sample.fanout Sample.N
    = Graph.getitem_list Sample.fanout
        (Graph.outgoing cpython_hash_None Sample.fanout
           (One (Some Sample.P)))
  ∧ Node.id Sample.N
    ∈ Graph.outgoing cpython_hash_None Sample.fanout (One (Some Sample.P))
  ∧ Some Sample.N ∈ Graph.siblings cpython_hash_None Sample.fanout Sample.N.
Proof.
  apply (proj1 (siblings_single_parent cpython_hash_None)
           Sample.fanout Sample.N (UStr "P") Sample.P);
    vm_compute; reflexivity.
Defined.

(** On the fan-out graph the siblings of N are N and S. *)
Example siblings_fanout :
  Graph.siblings cpython_hash_None Sample.fanout Sample.N ≡ₚ
  [Some Sample.N; Some Sample.S].
Proof. vm_compute. by_computation. Qed.

Lemma siblings_parallel_edges_witness :
  Graph.incoming cpython_hash_None Sample.parallel Sample.N
    = [UStr "P"; UStr "P"]
  ∧ Graph.siblings cpython_hash_None Sample.parallel Sample.N
    = [Some Sample.N].
Proof.
  apply (siblings_parallel_edges cpython_hash_None
           Sample.parallel Sample.N (UStr "P")).
  - refine (proj1 (Forall_forall
                     (λ e : edge, e.1.2 = Node.id Sample.N → e.1.1 = UStr "P")
                     (Graph.edges Sample.parallel)) _).
    by_computation.
  - vm_compute. lia.
Defined.

(** With the second edge P -> N the parent still has the two children N
    and S, but [siblings(N)] no longer reports S. *)
Example outgoing_parallel :
  Graph.getitem_list Sample.parallel
    (Graph.outgoing cpython_hash_None Sample.parallel (One (Some Sample.P)))
  ≡ₚ [Some Sample.N; Some Sample.S].
Proof. vm_compute. by_computation. Qed.

(** ** replace *)

Section replace_properties.

Variable hash_None : Z.

Abbreviation replace := (Graph.replace hash_None).

(** [replace], phase by phase. *)
Lemma replace_unfold nodes0 node g :
  replace nodes0 node g =
  let collapse := bool_decide (is_Some (Graph.nodes g !! Node.id node)) in
  let g1 :=
    if collapse then g
    else {| Graph.nodes := <[Node.id node := node]> (Graph.nodes g);
            Graph.edges := Graph.edges g |} in
  match head (as_list nodes0) with
  | None => (inl (IndexError "list index out of range"), g1)
  | Some first =>
      match Graph.for_each (Graph.incoming hash_None g1 first)
              (rewire_in hash_None node) g1 with
      | (inl e, g2) => (inl e, g2)
      | (inr _, g2) =>
          match last (as_list nodes0) with
          | None => (inl (IndexError "list index out of range"), g2)
          | Some final =>
              match Graph.for_each
                      (Graph.outgoing hash_None g2 (One (Some final)))
                      (rewire_out hash_None node) g2 with
              | (inl e, g3) => (inl e, g3)
              | (inr _, g3) =>
                  Graph.for_each (as_list nodes0)
                    (remove_old hash_None collapse node) g3
              end
          end
      end
  end.
Proof.
  unfold Graph.replace, mbind, Graph.M_bind, Graph.gets, Graph.index_first,
    Graph.index_last, mret, Graph.M_ret, Graph.raise, Graph.add_node,
    Graph.modify.
  cbv beta zeta. cbn [Graph.id].
  destruct (bool_decide (is_Some (Graph.nodes g !! Node.id node)));
    cbn [negb];
    (destruct (head (as_list nodes0)) as [first|]; [|reflexivity]);
    (destruct (Graph.for_each (Graph.incoming _ _ first) _ _)
       as [[e|[]] g2]; [reflexivity|]);
    (destruct (last (as_list nodes0)) as [final|]; [|reflexivity]);
    reflexivity.
Qed.


Lemma remove_old_no_collapse ns node g :
  Graph.for_each ns (remove_old hash_None false node) g
  = Graph.remove hash_None (Many ns) g.
Proof.
  revert g. induction ns as [|n ns IH]; intros g; [reflexivity|].
  cbn [Graph.for_each andb]. rewrite bind_unfold.
  rewrite remove_one, !remove_cons.
  destruct (Graph.nodes g !! Node.id n); [|reflexivity].
  rewrite remove_nil. apply IH.
Qed.

(** The run of [replace] on the closed chain: the graph whose nodes are
    exactly A, B and C, with the edges [(A, B, None)] and [(B, C, None)].
    A has no source and C no target, and the result is the single node
    [new] without any edge. *)
Lemma replace_closed_chain (A B C new : Node.t) :
  Node.id A ≠ Node.id B →
  Node.id A ≠ Node.id C →
  Node.id B ≠ Node.id C →
  Node.id new ≠ Node.id A →
  Node.id new ≠ Node.id B →
  Node.id new ≠ Node.id C →
  Graph.incoming hash_None
    {| Graph.nodes :=
         <[Node.id A := A]> (<[Node.id B := B]> (<[Node.id C := C]> ∅));
       Graph.edges :=
         [(Node.id A, Node.id B, PyNone); (Node.id B, Node.id C, PyNone)] |}
    A = []
  ∧ Graph.outgoing hash_None
      {| Graph.nodes :=
           <[Node.id A := A]> (<[Node.id B := B]> (<[Node.id C := C]> ∅));
         Graph.edges :=
           [(Node.id A, Node.id B, PyNone); (Node.id B, Node.id C, PyNone)] |}
      (One (Some C)) = []
  ∧ replace (Many [A; B; C]) new
      {| Graph.nodes :=
           <[Node.id A := A]> (<[Node.id B := B]> (<[Node.id C := C]> ∅));
         Graph.edges :=
           [(Node.id A, Node.id B, PyNone); (Node.id B, Node.id C, PyNone)] |}
    = (inr (), {| Graph.nodes := {[Node.id new := new]};
                  Graph.edges := [] |}).
Proof.
  intros Hab Hac Hbc Hna Hnb Hnc.
  assert (Hin : ∀ m,
    Graph.incoming hash_None
      {| Graph.nodes := m;
         Graph.edges :=
           [(Node.id A, Node.id B, PyNone); (Node.id B, Node.id C, PyNone)] |}
      A = []).
  { intros m. apply incoming_no_edge. cbn. intros e He.
    apply elem_of_cons in He as [->|He]; [cbn; congruence|].
    apply list_elem_of_singleton in He as ->. cbn. congruence. }
  assert (Hout : ∀ m,
    Graph.outgoing hash_None
      {| Graph.nodes := m;
         Graph.edges :=
           [(Node.id A, Node.id B, PyNone); (Node.id B, Node.id C, PyNone)] |}
      (One (Some C)) = []).
  { intros m. apply outgoing_no_edge. cbn. intros e He.
    rewrite list_elem_of_singleton.
    apply elem_of_cons in He as [->|He]; [cbn; congruence|].
    apply list_elem_of_singleton in He as ->. cbn. congruence. }
  split; [apply Hin|]. split; [apply Hout|].
  rewrite replace_unfold. cbn [as_list head last Graph.nodes Graph.edges].
  rewrite bool_decide_eq_false_2.
  2:{ rewrite !lookup_insert_ne, lookup_empty by done. by intros [? ?]. }
  cbv zeta. rewrite Hin, for_each_nil, Hout, for_each_nil.
  rewrite remove_old_no_collapse.
  rewrite remove_cons. cbn [Graph.nodes Graph.edges].
  rewrite lookup_insert_ne, lookup_insert_eq by done.
  rewrite filter_cons_False by (cbn; tauto).
  rewrite filter_cons_True by (cbn; done). rewrite filter_nil.
  rewrite remove_cons. cbn [Graph.nodes Graph.edges].
  rewrite lookup_delete_ne, lookup_insert_ne, lookup_insert_ne,
    lookup_insert_eq by done.
  rewrite filter_cons_False by (cbn; tauto). rewrite filter_nil.
  rewrite remove_cons. cbn [Graph.nodes Graph.edges].
  rewrite !lookup_delete_ne, !lookup_insert_ne, lookup_insert_eq by done.
  rewrite filter_nil, remove_nil. f_equal. f_equal.
  apply map_eq. intros k.
  destruct (decide (k = Node.id C)) as [->|HkC].
  { by rewrite lookup_delete_eq, lookup_singleton_ne. }
  rewrite lookup_delete_ne by done.
  destruct (decide (k = Node.id B)) as [->|HkB].
  { by rewrite lookup_delete_eq, lookup_singleton_ne. }
  rewrite lookup_delete_ne by done.
  destruct (decide (k = Node.id A)) as [->|HkA].
  { by rewrite lookup_delete_eq, lookup_singleton_ne. }
  rewrite lookup_delete_ne by done.
  destruct (decide (k = Node.id new)) as [->|Hkn].
  { by rewrite lookup_insert_eq, lookup_singleton_eq. }
  rewrite !lookup_insert_ne, lookup_singleton_ne, lookup_empty; done.
Qed.


(** The first loop of [replace] returns normally when every source is a
    stored node; it only appends edges into the new node. *)
Lemma rewire_in_ok node ks : ∀ g,
  (∀ k, k ∈ ks → is_Some (Graph.nodes g !! k)) →
  ∃ g' extra,
    Graph.for_each ks (rewire_in hash_None node) g = (inr (), g')
    ∧ Graph.nodes g' = Graph.nodes g
    ∧ Graph.edges g' = Graph.edges g ++ extra
    ∧ (∀ e, e ∈ extra →
         ∃ k n, k ∈ ks ∧ Graph.nodes g !! k = Some n
           ∧ e = (Node.id n, Node.id node, Node.output_shape n))
    ∧ (∀ k n, k ∈ ks → Graph.nodes g !! k = Some n →
         (Node.id n, Node.id node, Node.output_shape n) ∈ Graph.edges g').
Proof.
  induction ks as [|k ks IH]; intros g Hks.
  - exists g, []. rewrite for_each_nil, app_nil_r.
    repeat split; try done.
    + by intros ? ?%elem_of_nil.
    + by intros ? ? ?%elem_of_nil.
  - destruct (Hks k) as [n Hn]; [apply elem_of_cons; by left|].
    rewrite for_each_cons, bind_unfold. unfold Graph.nodes_at at 1.
    rewrite Hn.
    destruct (add_edge_returns hash_None (Some n) (Some node)
                (Node.output_shape n) g)
      as (g1 & Hrun & Hnodes1 & Hin1 & extra1 & Hedges1 & Hextra1).
    rewrite Hrun. cbn [Graph.id] in *.
    destruct (IH g1) as (g' & extra & Hloop & Hnodes & Hedges & Hextra & Hall).
    { intros j Hj. rewrite Hnodes1. apply Hks, elem_of_cons. by right. }
    exists g', (extra1 ++ extra). split; [done|].
    split; [by rewrite Hnodes|].
    split; [by rewrite Hedges, Hedges1, app_assoc|].
    split.
    + intros e [He|He]%elem_of_app.
      * exists k, n. split; [apply elem_of_cons; by left|].
        split; [done|]. by apply Hextra1.
      * destruct (Hextra e He) as (j & m & Hj & Hm & ->).
        exists j, m. split; [apply elem_of_cons; by right|].
        split; [by rewrite <- Hnodes1|done].
    + intros j m [->|Hj]%elem_of_cons Hm.
      * assert (m = n) as -> by congruence.
        rewrite Hedges. apply elem_of_app. by left.
      * apply (Hall j m Hj). by rewrite Hnodes1.
Qed.

(** The second loop of [replace] always returns normally; it only appends
    edges out of the new node. *)
Lemma rewire_out_ok node ks : ∀ g,
  ∃ g' extra,
    Graph.for_each ks (rewire_out hash_None node) g = (inr (), g')
    ∧ Graph.nodes g' = Graph.nodes g
    ∧ Graph.edges g' = Graph.edges g ++ extra
    ∧ (∀ e, e ∈ extra →
         ∃ k, k ∈ ks
           ∧ e = (Node.id node, Graph.id hash_None (Graph.nodes g !! k),
                  Node.output_shape node))
    ∧ (∀ k, k ∈ ks →
         (Node.id node, Graph.id hash_None (Graph.nodes g !! k),
          Node.output_shape node) ∈ Graph.edges g').
Proof.
  induction ks as [|k ks IH]; intros g.
  - exists g, []. rewrite for_each_nil, app_nil_r.
    repeat split; try done; by intros ? ?%elem_of_nil.
  - rewrite for_each_cons, bind_unfold. cbn [Graph.gets].
    unfold Graph.getitem at 1.
    destruct (add_edge_returns hash_None (Some node) (Graph.nodes g !! k)
                (Node.output_shape node) g)
      as (g1 & Hrun & Hnodes1 & Hin1 & extra1 & Hedges1 & Hextra1).
    rewrite Hrun. cbn [Graph.id] in Hin1, Hextra1.
    destruct (IH g1) as (g' & extra & Hloop & Hnodes & Hedges & Hextra & Hall).
    exists g', (extra1 ++ extra). split; [done|].
    split; [by rewrite Hnodes|].
    split; [by rewrite Hedges, Hedges1, app_assoc|].
    split.
    + intros e [He|He]%elem_of_app.
      * exists k. split; [apply elem_of_cons; by left|]. by apply Hextra1.
      * destruct (Hextra e He) as (j & Hj & ->).
        exists j. split; [apply elem_of_cons; by right|].
        by rewrite Hnodes1.
    + intros j [->|Hj]%elem_of_cons.
      * rewrite Hedges. apply elem_of_app. by left.
      * rewrite <- Hnodes1. by apply Hall.
Qed.


Lemma incoming_mono g g' n extra k :
  Graph.edges g' = Graph.edges g ++ extra →
  k ∈ Graph.incoming hash_None g n → k ∈ Graph.incoming hash_None g' n.
Proof.
  intros Hedges [l Hl]%elem_of_incoming. apply elem_of_incoming.
  exists l. rewrite Hedges. apply elem_of_app. by left.
Qed.

Lemma outgoing_mono g g' ns extra k :
  Graph.edges g' = Graph.edges g ++ extra →
  k ∈ Graph.outgoing hash_None g ns → k ∈ Graph.outgoing hash_None g' ns.
Proof.
  intros Hedges (s & l & Hs & Hl)%elem_of_outgoing. apply elem_of_outgoing.
  exists s, l. split; [done|]. rewrite Hedges. apply elem_of_app. by left.
Qed.

(** The collapse of a stored node [a] onto itself, when the incoming edges
    of [a] all come from stored nodes: [replace([a], a)] returns normally,
    leaves the node mapping as it was and keeps every edge, so every former
    source of [a] is still a source and every former target still a target.
    It appends only edges that touch [a]: for every former source an edge
    into [a] labelled with the source's [output_shape], and for every former
    target identifier [k] an edge out of [a], labelled with the
    [output_shape] of [a], to the identifier of [graph[k]], which is
    [hash(None)] when [k] is no key of the mapping. *)
Lemma replace_collapse_onto_self g a :
  Graph.nodes g !! Node.id a = Some a →
  (∀ k, k ∈ Graph.incoming hash_None g a → is_Some (Graph.nodes g !! k)) →
  ∃ g' extra,
    replace (One a) a g = (inr (), g')
    ∧ Graph.nodes g' = Graph.nodes g
    ∧ Graph.edges g' = Graph.edges g ++ extra
    ∧ (∀ e : edge, e ∈ extra → e.1.1 = Node.id a ∨ e.1.2 = Node.id a)
    ∧ (∀ k, k ∈ Graph.incoming hash_None g a →
         k ∈ Graph.incoming hash_None g' a)
    ∧ (∀ k, k ∈ Graph.outgoing hash_None g (One (Some a)) →
         k ∈ Graph.outgoing hash_None g' (One (Some a)))
    ∧ (∀ k n, k ∈ Graph.incoming hash_None g a →
         Graph.nodes g !! k = Some n →
         (Node.id n, Node.id a, Node.output_shape n) ∈ Graph.edges g')
    ∧ (∀ k, k ∈ Graph.outgoing hash_None g (One (Some a)) →
         (Node.id a, Graph.id hash_None (Graph.nodes g !! k),
          Node.output_shape a) ∈ Graph.edges g').
Proof.
  intros Hstored Hsources.
  rewrite replace_unfold. cbn [as_list head last].
  rewrite bool_decide_eq_true_2 by (by rewrite Hstored). cbv zeta.
  destruct (rewire_in_ok a (Graph.incoming hash_None g a) g Hsources)
    as (g2 & extra1 & Hloop1 & Hnodes1 & Hedges1 & Hextra1 & Hall1).
  rewrite Hloop1.
  destruct (rewire_out_ok a (Graph.outgoing hash_None g2 (One (Some a))) g2)
    as (g3 & extra2 & Hloop2 & Hnodes2 & Hedges2 & Hextra2 & Hall2).
  rewrite Hloop2.
  rewrite for_each_cons. unfold Node.same.
  rewrite bool_decide_eq_true_2 by done. cbn [andb mret Graph.M_ret].
  rewrite for_each_nil.
  assert (Hedges : Graph.edges g3 = Graph.edges g ++ (extra1 ++ extra2)).
  { by rewrite Hedges2, Hedges1, app_assoc. }
  exists g3, (extra1 ++ extra2).
  split; [done|]. split; [by rewrite Hnodes2|]. split; [done|].
  split; [|split; [|split; [|split]]].
  - intros e [He|He]%elem_of_app.
    + destruct (Hextra1 e He) as (k & n & _ & _ & ->). by right.
    + destruct (Hextra2 e He) as (k & _ & ->). by left.
  - intros k. by apply incoming_mono with (extra := extra1 ++ extra2).
  - intros k. by apply outgoing_mono with (extra := extra1 ++ extra2).
  - intros k n Hk Hn. rewrite Hedges2. apply elem_of_app. left.
    by apply (Hall1 k n).
  - intros k Hk. rewrite <- Hnodes1. apply Hall2.
    by apply outgoing_mono with (g := g) (extra := extra1).
Qed.

End replace_properties.

(** ** replace on the samples *)

(** The sample chain is the graph of the example: nodes A, B and C, edges
    [(A, B, None)] and [(B, C, None)]. *)
Example chain_nodes_edges :
  Sample.chain
  = {| Graph.nodes :=
         <[UStr "A" := Sample.A]>
           (<[UStr "B" := Sample.B]> (<[UStr "C" := Sample.C]> ∅));
       Graph.edges :=
         [(UStr "A", UStr "B", PyNone); (UStr "B", UStr "C", PyNone)] |}.
Proof. vm_compute. reflexivity. Qed.

(** Inside a longer pipeline the chain is replaced by the fused node, which
    inherits the source of A and the target of C; the new edges carry the
    shapes of their sources. *)
Example replace_chain_in_pipeline :
  Graph.replace cpython_hash_None
    (Many [Sample.A; Sample.B; Sample.C]) Sample.fused Sample.pipeline
  = (inr (),
     {| Graph.nodes :=
          <[UStr "P" := Sample.P]>
            (<[UStr "S" := Sample.S]> {[UStr "fused" := Sample.fused]});
        Graph.edges :=
          [(UStr "P", UStr "fused", Node.output_shape Sample.P);
           (UStr "fused", UStr "S", Node.output_shape Sample.fused)] |}).
Proof. vm_compute. reflexivity. Qed.

(** C2.  The claim fails on the code when [new] has the identifier of [a]
    but is another object.  [replace] decides the collapse by identifier
    and stores nothing for [new]; the test [n == node] compares objects and
    is false, so [a] is removed with all its edges.  Here N is stored and
    has the source P; afterwards the identifier of N is no key of the
    mapping and the edge from P is gone. *)
Lemma replace_same_id_counterexample :
  Node.id Sample.N_again = Node.id Sample.N
  ∧ Graph.nodes Sample.fanout !! Node.id Sample.N = Some Sample.N
  ∧ Graph.incoming cpython_hash_None Sample.fanout Sample.N = [UStr "P"]
  ∧ Graph.replace cpython_hash_None (One Sample.N) Sample.N_again
      Sample.fanout
    = (inr (),
       {| Graph.nodes :=
            <[UStr "P" := Sample.P]> {[UStr "S" := Sample.S]};
          Graph.edges := [(UStr "P", UStr "S", PyNone)] |}).
Proof. vm_compute. repeat split. Qed.

Lemma replace_collapse_onto_self_witness :
  ∃ g' extra,
    Graph.replace cpython_hash_None (One Sample.N) Sample.N Sample.fanout
      = (inr (), g')
    ∧ Graph.nodes g' = Graph.nodes Sample.fanout
    ∧ Graph.edges g' = Graph.edges Sample.fanout ++ extra
    ∧ (∀ e : edge, e ∈ extra →
         e.1.1 = Node.id Sample.N ∨ e.1.2 = Node.id Sample.N)
    ∧ (∀ k, k ∈ Graph.incoming cpython_hash_None Sample.fanout Sample.N →
         k ∈ Graph.incoming cpython_hash_None g' Sample.N)
    ∧ (∀ k, k ∈ Graph.outgoing cpython_hash_None Sample.fanout
                  (One (Some Sample.N)) →
         k ∈ Graph.outgoing cpython_hash_None g' (One (Some Sample.N)))
    ∧ (∀ k n, k ∈ Graph.incoming cpython_hash_None Sample.fanout Sample.N →
         Graph.nodes Sample.fanout !! k = Some n →
         (Node.id n, Node.id Sample.N, Node.output_shape n)
         ∈ Graph.edges g')
    ∧ (∀ k, k ∈ Graph.outgoing cpython_hash_None Sample.fanout
                  (One (Some Sample.N)) →
         (Node.id Sample.N,
          Graph.id cpython_hash_None (Graph.nodes Sample.fanout !! k),
          Node.output_shape Sample.N) ∈ Graph.edges g').
Proof.
  apply (replace_collapse_onto_self cpython_hash_None
           Sample.fanout Sample.N).
  - vm_compute. reflexivity.
  - refine (proj1 (Forall_forall
                     (λ k, is_Some (Graph.nodes Sample.fanout !! k))
                     (Graph.incoming cpython_hash_None Sample.fanout
                        Sample.N)) _).
    by_computation.
Defined.

(** The collapse of N onto itself in the fan-out graph: the edge from P is
    added once more, labelled with the shape of P. *)
Example replace_collapse_fanout :
  Graph.replace cpython_hash_None (One Sample.N) Sample.N Sample.fanout
  = (inr (),
     {| Graph.nodes := Graph.nodes Sample.fanout;
        Graph.edges :=
          Graph.edges Sample.fanout
            ++ [(UStr "P", UStr "N", Node.output_shape Sample.P)] |}).
Proof. vm_compute. reflexivity. Qed.

(** When a source of [a] is not a key of the node mapping, the lookup
    [self.nodes[k]] of the first loop raises [KeyError]. *)
Example replace_collapse_dangling_source :
  Graph.replace cpython_hash_None (One Sample.N) Sample.N Sample.dangling
  = (inl (KeyError (UStr "X")),
     {| Graph.nodes := Graph.nodes Sample.dangling;
        Graph.edges :=
          Graph.edges Sample.dangling
            ++ [(UStr "P", UStr "N", Node.output_shape Sample.P)] |}).
Proof. vm_compute. reflexivity. Qed.

(** ** The edges that replace adds *)

Section rewiring_properties.

Variable hash_None : Z.

(** A loop whose body appends the edge [ed x] unless it is present, over a
    graph whose node mapping [m] the body does not change: the loop appends
    the edges [ed x] not yet present, each one once. *)
Lemma add_edges_loop {A : Type} (m : gmap uid Node.t) (ed : A → edge)
    (body : A → Graph.M unit) (xs : list A) :
  (∀ x g, x ∈ xs → Graph.nodes g = m →
     body x g
     = (inr (),
        if decide (ed x ∈ Graph.edges g) then g
        else {| Graph.nodes := Graph.nodes g;
                Graph.edges := Graph.edges g ++ [ed x] |})) →
  ∀ g, Graph.nodes g = m →
  ∃ extra,
    Graph.for_each xs body g
    = (inr (), {| Graph.nodes := m; Graph.edges := Graph.edges g ++ extra |})
    ∧ NoDup extra
    ∧ (∀ e, e ∈ extra ↔ (e ∉ Graph.edges g) ∧ ∃ x, x ∈ xs ∧ e = ed x).
Proof.
  induction xs as [|x xs IH]; intros Hbody g Hg.
  - exists []. rewrite for_each_nil, app_nil_r. split; [|split].
    + destruct g. cbn in *. by subst.
    + apply NoDup_nil_2.
    + intros e. split; [by intros ?%elem_of_nil|].
      by intros (_ & y & ?%elem_of_nil & _).
  - assert (Hxs : ∀ y g0, y ∈ xs → Graph.nodes g0 = m →
                    body y g0
                    = (inr (),
                       if decide (ed y ∈ Graph.edges g0) then g0
                       else {| Graph.nodes := Graph.nodes g0;
                               Graph.edges := Graph.edges g0 ++ [ed y] |})).
    { intros y g0 Hy. apply Hbody, elem_of_cons. by right. }
    rewrite for_each_cons, (Hbody x g) by (done || apply elem_of_cons; by left).
    destruct (decide (ed x ∈ Graph.edges g)) as [Hin|Hin].
    + destruct (IH Hxs g Hg) as (extra & Hrun & Hnd & Hiff).
      exists extra. split; [done|]. split; [done|].
      intros e. rewrite Hiff. split.
      * intros (He & y & Hy & ->). split; [done|]. exists y.
        split; [apply elem_of_cons; by right|done].
      * intros (He & y & [->|Hy]%elem_of_cons & ->); [done|].
        split; [done|]. by exists y.
    + destruct (IH Hxs {| Graph.nodes := Graph.nodes g;
                          Graph.edges := Graph.edges g ++ [ed x] |} Hg)
        as (extra & Hrun & Hnd & Hiff).
      cbn [Graph.edges] in Hrun, Hiff.
      exists (ed x :: extra). split; [|split].
      * rewrite Hrun. by rewrite <- app_assoc.
      * apply NoDup_cons. split; [|done].
        intros [Hx _]%Hiff. apply Hx, elem_of_app. right.
        by apply list_elem_of_singleton.
      * intros e. rewrite elem_of_cons, Hiff, elem_of_app,
          list_elem_of_singleton. split.
        -- intros [->|(He & y & Hy & ->)].
           ++ split; [done|]. exists x. split; [apply elem_of_cons; by left|done].
           ++ split; [tauto|]. exists y.
              split; [apply elem_of_cons; by right|done].
        -- intros (He & y & [->|Hy]%elem_of_cons & ->); [by left|].
           destruct (decide (ed y = ed x)) as [Heq|Hne]; [by left|].
           right. split; [tauto|]. by exists y.
Qed.

(** The first loop of [replace], exactly: when every source is a stored
    node, it appends, once each, the edges from the sources into the new
    node that are not present, labelled with the [output_shape] of the
    source. *)
Lemma rewire_in_exact node ks g :
  (∀ k, k ∈ ks → is_Some (Graph.nodes g !! k)) →
  ∃ extra,
    Graph.for_each ks (rewire_in hash_None node) g
    = (inr (), {| Graph.nodes := Graph.nodes g;
                  Graph.edges := Graph.edges g ++ extra |})
    ∧ NoDup extra
    ∧ (∀ e, e ∈ extra ↔
            (e ∉ Graph.edges g)
            ∧ ∃ k n, k ∈ ks ∧ Graph.nodes g !! k = Some n
                ∧ e = (Node.id n, Node.id node, Node.output_shape n)).
Proof.
  intros Hks.
  destruct (add_edges_loop (Graph.nodes g)
              (λ k, match Graph.nodes g !! k with
                    | Some n => (Node.id n, Node.id node, Node.output_shape n)
                    | None => (k, k, PyNone)
                    end)
              (rewire_in hash_None node) ks) with (g := g)
    as (extra & Hrun & Hnd & Hiff); [|done|].
  { intros k g0 Hk Hg0. cbv beta. rewrite bind_unfold.
    unfold Graph.nodes_at. destruct (Hks k Hk) as [n Hn].
    replace (Graph.nodes g0 !! k) with (Some n) by (by rewrite Hg0).
    rewrite Hn. unfold Graph.add_edge, Graph.modify. reflexivity. }
  exists extra. split; [done|]. split; [done|].
  intros e. rewrite Hiff. split.
  - intros (He & k & Hk & ->). split; [done|].
    destruct (Hks k Hk) as [n Hn]. exists k, n. by rewrite Hn.
  - intros (He & k & n & Hk & Hn & ->). split; [done|].
    exists k. by rewrite Hn.
Qed.

(** The second loop of [replace], exactly: it always returns, and appends,
    once each, the edges that are not present from the new node to the
    identifier of [graph[k]] for every target [k], labelled with the
    [output_shape] of the new node. *)
Lemma rewire_out_exact node ks g :
  ∃ extra,
    Graph.for_each ks (rewire_out hash_None node) g
    = (inr (), {| Graph.nodes := Graph.nodes g;
                  Graph.edges := Graph.edges g ++ extra |})
    ∧ NoDup extra
    ∧ (∀ e, e ∈ extra ↔
            (e ∉ Graph.edges g)
            ∧ ∃ k, k ∈ ks
                ∧ e = (Node.id node,
                       Graph.id hash_None (Graph.nodes g !! k),
                       Node.output_shape node)).
Proof.
  apply (add_edges_loop (Graph.nodes g)
           (λ k, (Node.id node, Graph.id hash_None (Graph.nodes g !! k),
                  Node.output_shape node))
           (rewire_out hash_None node) ks); [|done].
  intros k g0 Hk Hg0. cbv beta. rewrite bind_unfold. cbn [Graph.gets].
  unfold Graph.getitem.
  replace (Graph.nodes g0 !! k) with (Graph.nodes g !! k)
    by (by rewrite Hg0).
  unfold Graph.add_edge, Graph.modify. reflexivity.
Qed.

(** The run of [replace] for a new node whose identifier is no key of the
    mapping, with the edges it adds. *)
Lemma replace_fresh_run ns first final new g :
  head ns = Some first →
  last ns = Some final →
  NoDup (Node.id <$> ns) →
  (∀ n, n ∈ ns → is_Some (Graph.nodes g !! Node.id n)) →
  Graph.nodes g !! Node.id new = None →
  (∀ k, k ∈ Graph.incoming hash_None g first →
     is_Some (Graph.nodes g !! k)) →
  ∃ g' extra_in extra_out,
    Graph.replace hash_None (Many ns) new g = (inr (), g')
    ∧ (∀ k, Graph.nodes g' !! k =
            if decide (k ∈ Node.id <$> ns) then None
            else <[Node.id new := new]> (Graph.nodes g) !! k)
    ∧ Graph.edges g'
      = untouched_all (Node.id <$> ns)
          (Graph.edges g ++ extra_in ++ extra_out)
    ∧ NoDup extra_in
    ∧ (∀ e, e ∈ extra_in ↔
            (e ∉ Graph.edges g)
            ∧ ∃ k n, k ∈ Graph.incoming hash_None g first
                ∧ Graph.nodes g !! k = Some n
                ∧ e = (Node.id n, Node.id new, Node.output_shape n))
    ∧ NoDup extra_out
    ∧ (∀ e, e ∈ extra_out ↔
            (e ∉ Graph.edges g ++ extra_in)
            ∧ ∃ k, k ∈ Graph.outgoing hash_None
                         {| Graph.nodes := Graph.nodes g;
                            Graph.edges := Graph.edges g ++ extra_in |}
                         (One (Some final))
                ∧ e = (Node.id new,
                       Graph.id hash_None
                         (<[Node.id new := new]> (Graph.nodes g) !! k),
                       Node.output_shape new)).
Proof.
  intros Hfirst Hfinal Hnd Hstored Hfresh Hsources.
  assert (Hnew : Node.id new ∉ Node.id <$> ns).
  { intros (n & Heq & Hn)%list_elem_of_fmap.
    destruct (Hstored n Hn) as [x Hx]. congruence. }
  assert (Hkeep : ∀ k, is_Some (Graph.nodes g !! k) →
            <[Node.id new := new]> (Graph.nodes g) !! k = Graph.nodes g !! k).
  { intros k [x Hx]. apply lookup_insert_ne. intros <-. congruence. }
  rewrite replace_unfold. cbn [as_list]. rewrite Hfirst, Hfinal.
  rewrite bool_decide_eq_false_2 by (rewrite Hfresh; by intros [? ?]).
  cbv zeta.
  set (g1 := {| Graph.nodes := <[Node.id new := new]> (Graph.nodes g);
                Graph.edges := Graph.edges g |}).
  destruct (rewire_in_exact new (Graph.incoming hash_None g1 first) g1)
    as (extra1 & Hloop1 & Hnd1 & Hiff1).
  { intros k Hk. cbn [Graph.nodes g1]. rewrite Hkeep; by apply Hsources. }
  rewrite Hloop1.
  set (g2 := {| Graph.nodes := Graph.nodes g1;
                Graph.edges := Graph.edges g1 ++ extra1 |}).
  destruct (rewire_out_exact new
              (Graph.outgoing hash_None g2 (One (Some final))) g2)
    as (extra2 & Hloop2 & Hnd2 & Hiff2).
  rewrite Hloop2, remove_old_no_collapse.
  set (g3 := {| Graph.nodes := Graph.nodes g2;
                Graph.edges := Graph.edges g2 ++ extra2 |}).
  destruct (remove_many_ok hash_None ns g3 Hnd)
    as (g' & Hrun & Hnodes & Hedges).
  { intros n Hn. cbn. rewrite Hkeep; by apply Hstored. }
  exists g', extra1, extra2. split; [done|].
  split; [done|]. split; [by rewrite Hedges; cbn; rewrite <- app_assoc|].
  split; [done|]. split; [|split; [done|]].
  - intros e. rewrite Hiff1. cbn [Graph.edges Graph.nodes g1]. split.
    + intros (He & k & n & Hk & Hn & ->). split; [done|]. exists k, n.
      split; [done|]. split; [|done]. rewrite <- Hn. symmetry.
      by apply Hkeep, Hsources.
    + intros (He & k & n & Hk & Hn & ->). split; [done|]. exists k, n.
      split; [done|]. split; [|done]. rewrite <- Hn.
      by apply Hkeep, Hsources.
  - intros e. by rewrite Hiff2.
Qed.

(** X17. Replacing stored nodes with distinct identifiers by a node whose
    identifier is no key of the mapping, when the sources of the first node
    are stored nodes.  [replace] returns normally; the new node is inserted
    and the old keys are deleted.  Before the removal the edge list is the
    old one followed by the edges into the new node and then the edges out
    of it, each new edge once and only if it was not present: into the new
    node one edge from every source of the first node, labelled with the
    source's [output_shape]; out of the new node one edge for every target
    identifier [k] of the last node, labelled with the [output_shape] of the
    new node and leading to the identifier of [graph[k]], which is
    [hash(None)] when [k] is no key.  The removal then drops every edge that
    touches a replaced node. *)
Theorem replace_by_fresh_node ns first final new g :
  head ns = Some first →
  last ns = Some final →
  NoDup (Node.id <$> ns) →
  (∀ n, n ∈ ns → is_Some (Graph.nodes g !! Node.id n)) →
  Graph.nodes g !! Node.id new = None →
  (∀ k, k ∈ Graph.incoming hash_None g first →
     is_Some (Graph.nodes g !! k)) →
  ∃ g' extra_in extra_out,
    Graph.replace hash_None (Many ns) new g = (inr (), g')
    ∧ (∀ k, Graph.nodes g' !! k =
            if decide (k ∈ Node.id <$> ns) then None
            else <[Node.id new := new]> (Graph.nodes g) !! k)
    ∧ Graph.edges g'
      = untouched_all (Node.id <$> ns)
          (Graph.edges g ++ extra_in ++ extra_out)
    ∧ NoDup extra_in
    ∧ (∀ e, e ∈ extra_in ↔
            (e ∉ Graph.edges g)
            ∧ ∃ k n, k ∈ Graph.incoming hash_None g first
                ∧ Graph.nodes g !! k = Some n
                ∧ e = (Node.id n, Node.id new, Node.output_shape n))
    ∧ NoDup extra_out
    ∧ (∀ e, e ∈ extra_out ↔
            (e ∉ Graph.edges g ++ extra_in)
            ∧ ∃ k, k ∈ Graph.outgoing hash_None
                         {| Graph.nodes := Graph.nodes g;
                            Graph.edges := Graph.edges g ++ extra_in |}
                         (One (Some final))
                ∧ e = (Node.id new,
                       Graph.id hash_None
                         (<[Node.id new := new]> (Graph.nodes g) !! k),
                       Node.output_shape new)).
Proof. apply replace_fresh_run. Qed.

Lemma filter_keeps_all {A : Type} (P : A → Prop) `{!∀ x, Decision (P x)}
    (l : list A) :
  (∀ x, x ∈ l → P x) → filter P l = l.
Proof.
  induction l as [|x l IH]; intros Hl; [reflexivity|].
  rewrite filter_cons_True by (apply Hl, elem_of_cons; by left).
  f_equal. apply IH. intros y Hy. apply Hl, elem_of_cons. by right.
Qed.

(** C1. Replacing the chain A, B, C by a node [new] whose identifier is not
    in the graph.

    First part, the chain inside a graph: the keys agree with the
    identifiers, A, B and C are stored, the identifier of [new] is neither a
    key nor an endpoint of an edge, and the sources of A and the targets of
    C are stored nodes outside the chain.  Then [replace([A, B, C], new)]
    returns normally.  It removes A, B and C from the mapping and inserts
    [new]; the edge list is the old one without the edges that touch A, B
    or C, followed by one edge from every former source of A to [new],
    labelled with the [output_shape] of that source, and by one edge from
    [new] to every former target of C, labelled with the [output_shape] of
    [new].

    Second part, the example: in the graph whose nodes are exactly A, B and
    C, with the edges [(A, B, None)] and [(B, C, None)], A has no source and
    C no target, and the result is the single node [new] and no edge. *)
Theorem replace_chain_by_new_node :
  (∀ g A B C new,
     Graph.keyed g →
     Graph.nodes g !! Node.id A = Some A →
     Graph.nodes g !! Node.id B = Some B →
     Graph.nodes g !! Node.id C = Some C →
     Node.id A ≠ Node.id B →
     Node.id A ≠ Node.id C →
     Node.id B ≠ Node.id C →
     Graph.nodes g !! Node.id new = None →
     (∀ e : edge, e ∈ Graph.edges g →
        e.1.1 ≠ Node.id new ∧ e.1.2 ≠ Node.id new) →
     (∀ e : edge, e ∈ Graph.edges g → e.1.2 = Node.id A →
        is_Some (Graph.nodes g !! e.1.1)
        ∧ (e.1.1 ∉ [Node.id A; Node.id B; Node.id C])) →
     (∀ e : edge, e ∈ Graph.edges g → e.1.1 = Node.id C →
        is_Some (Graph.nodes g !! e.1.2)
        ∧ (e.1.2 ∉ [Node.id A; Node.id B; Node.id C])) →
     ∃ g' in_edges out_edges,
       Graph.replace hash_None (Many [A; B; C]) new g = (inr (), g')
       ∧ Graph.nodes g'
         = <[Node.id new := new]>
             (delete (Node.id C)
                (delete (Node.id B) (delete (Node.id A) (Graph.nodes g))))
       ∧ Graph.edges g'
         = untouched_all [Node.id A; Node.id B; Node.id C] (Graph.edges g)
             ++ in_edges ++ out_edges
       ∧ NoDup in_edges
       ∧ (∀ e, e ∈ in_edges ↔
               ∃ k n, k ∈ Graph.incoming hash_None g A
                 ∧ Graph.nodes g !! k = Some n
                 ∧ e = (k, Node.id new, Node.output_shape n))
       ∧ NoDup out_edges
       ∧ (∀ e, e ∈ out_edges ↔
               ∃ k, k ∈ Graph.outgoing hash_None g (One (Some C))
                 ∧ e = (Node.id new, k, Node.output_shape new)))
  ∧ (∀ A B C new,
       Node.id A ≠ Node.id B →
       Node.id A ≠ Node.id C →
       Node.id B ≠ Node.id C →
       Node.id new ≠ Node.id A →
       Node.id new ≠ Node.id B →
       Node.id new ≠ Node.id C →
       Graph.incoming hash_None
         {| Graph.nodes :=
              <[Node.id A := A]>
                (<[Node.id B := B]> (<[Node.id C := C]> ∅));
            Graph.edges :=
              [(Node.id A, Node.id B, PyNone);
               (Node.id B, Node.id C, PyNone)] |}
         A = []
       ∧ Graph.outgoing hash_None
           {| Graph.nodes :=
                <[Node.id A := A]>
                  (<[Node.id B := B]> (<[Node.id C := C]> ∅));
              Graph.edges :=
                [(Node.id A, Node.id B, PyNone);
                 (Node.id B, Node.id C, PyNone)] |}
           (One (Some C)) = []
       ∧ Graph.replace hash_None (Many [A; B; C]) new
           {| Graph.nodes :=
                <[Node.id A := A]>
                  (<[Node.id B := B]> (<[Node.id C := C]> ∅));
              Graph.edges :=
                [(Node.id A, Node.id B, PyNone);
                 (Node.id B, Node.id C, PyNone)] |}
         = (inr (), {| Graph.nodes := {[Node.id new := new]};
                       Graph.edges := [] |})).
Proof.
  split; [|intros A B C new; apply replace_closed_chain].
  intros g A B C new Hkeyed HA HB HC Hab Hac Hbc Hfresh Huntouched Hsrc Htgt.
  assert (Hid : ∀ k n, Graph.nodes g !! k = Some n → Node.id n = k).
  { intros k n Hk. by apply (Hkeyed k n). }
  assert (Hnew : Node.id new ∉ [Node.id A; Node.id B; Node.id C]).
  { rewrite !elem_of_cons, elem_of_nil. intros [Heq|[Heq|[Heq|[]]]];
      rewrite Heq in Hfresh; congruence. }
  assert (Hsource : ∀ k, k ∈ Graph.incoming hash_None g A →
            is_Some (Graph.nodes g !! k)
            ∧ (k ∉ [Node.id A; Node.id B; Node.id C])).
  { intros k [l Hl]%elem_of_incoming. by apply (Hsrc _ Hl). }
  assert (Htarget : ∀ k, k ∈ Graph.outgoing hash_None g (One (Some C)) →
            is_Some (Graph.nodes g !! k)
            ∧ (k ∉ [Node.id A; Node.id B; Node.id C])
            ∧ k ≠ Node.id new).
  { intros k (s & l & Hs & Hl)%elem_of_outgoing. cbn in Hs.
    apply list_elem_of_singleton in Hs as ->.
    destruct (Htgt _ Hl) as [? ?]; [done|].
    destruct (Huntouched _ Hl) as [_ ?]. done. }
  destruct (replace_fresh_run [A; B; C] A C new g)
    as (g' & ein & eout & Hrun & Hnodes & Hedges & Hnd_in & Hiff_in
        & Hnd_out & Hiff_out); try done.
  { cbn. repeat (apply NoDup_cons; split);
      rewrite ?elem_of_cons, ?elem_of_nil; try tauto. apply NoDup_nil_2. }
  { intros n. rewrite !elem_of_cons, elem_of_nil.
    intros [->|[->|[->|[]]]]; by eexists. }
  { intros k Hk. by apply Hsource. }
  cbn [fmap list_fmap] in Hnodes, Hedges.
  (* the edges into the new node *)
  assert (Hin : ∀ e, e ∈ ein ↔
            ∃ k n, k ∈ Graph.incoming hash_None g A
              ∧ Graph.nodes g !! k = Some n
              ∧ e = (k, Node.id new, Node.output_shape n)).
  { intros e. rewrite Hiff_in. split.
    - intros (_ & k & n & Hk & Hn & ->). exists k, n.
      by rewrite (Hid k n Hn).
    - intros (k & n & Hk & Hn & ->). split.
      + intros He. by destruct (Huntouched _ He) as [_ ?].
      + exists k, n. by rewrite (Hid k n Hn). }
  (* the targets of C are not changed by the first loop *)
  assert (Hsame : ∀ k,
            k ∈ Graph.outgoing hash_None
                  {| Graph.nodes := Graph.nodes g;
                     Graph.edges := Graph.edges g ++ ein |}
                  (One (Some C))
            ↔ k ∈ Graph.outgoing hash_None g (One (Some C))).
  { intros k. rewrite !elem_of_outgoing. cbn [as_list fmap list_fmap
      Graph.id Graph.edges]. split.
    - intros (s & l & Hs & [He|He]%elem_of_app); [by exists s, l|].
      apply list_elem_of_singleton in Hs as ->.
      apply Hin in He as (k' & n & Hk' & _ & [= <- _ _]).
      destruct (Hsource _ Hk') as [_ Hout]. exfalso. apply Hout.
      rewrite !elem_of_cons. tauto.
    - intros (s & l & Hs & He). exists s, l. split; [done|].
      apply elem_of_app. by left. }
  assert (Hout : ∀ e, e ∈ eout ↔
            ∃ k, k ∈ Graph.outgoing hash_None g (One (Some C))
              ∧ e = (Node.id new, k, Node.output_shape new)).
  { assert (Hres : ∀ k, k ∈ Graph.outgoing hash_None g (One (Some C)) →
              Graph.id hash_None
                (<[Node.id new := new]> (Graph.nodes g) !! k) = k).
    { intros k Hk. destruct (Htarget k Hk) as ([n Hn] & _ & Hne).
      rewrite lookup_insert_ne, Hn by done. by apply Hid. }
    intros e. rewrite Hiff_out. split.
    - intros (_ & k & Hk%Hsame & ->). exists k. by rewrite Hres.
    - intros (k & Hk & ->). split.
      + intros [He|He]%elem_of_app.
        * by destruct (Huntouched _ He) as [? _].
        * apply Hin in He as (k' & n & Hk' & _ & [= Heq _ _]).
          destruct (Hsource _ Hk') as ([x Hx] & _). congruence.
      + exists k. split; [by apply Hsame|]. by rewrite Hres. }
  exists g', ein, eout. split; [done|]. split; [|split].
  - apply map_eq. intros k. rewrite Hnodes.
    destruct (decide (k = Node.id new)) as [->|Hk].
    { rewrite decide_False by done. by rewrite !lookup_insert_eq. }
    rewrite (lookup_insert_ne (delete _ _)) by done.
    destruct (decide (k = Node.id C)) as [->|HkC].
    { rewrite decide_True by (rewrite !elem_of_cons; tauto).
      by rewrite lookup_delete_eq. }
    rewrite lookup_delete_ne by done.
    destruct (decide (k = Node.id B)) as [->|HkB].
    { rewrite decide_True by (rewrite !elem_of_cons; tauto).
      by rewrite lookup_delete_eq. }
    rewrite lookup_delete_ne by done.
    destruct (decide (k = Node.id A)) as [->|HkA].
    { rewrite decide_True by (rewrite !elem_of_cons; tauto).
      by rewrite lookup_delete_eq. }
    rewrite lookup_delete_ne by done.
    rewrite decide_False.
    + by apply lookup_insert_ne.
    + rewrite !elem_of_cons, elem_of_nil. tauto.
  - rewrite Hedges, !filter_app. f_equal. f_equal.
    + apply filter_keeps_all. intros e (k & n & Hk & _ & ->)%Hin. cbn.
      by destruct (Hsource _ Hk) as [_ ?].
    + apply filter_keeps_all. intros e (k & Hk & ->)%Hout. cbn.
      by destruct (Htarget _ Hk) as (_ & ? & _).
  - done.
Qed.

End rewiring_properties.

(** ** The chain replaced in the pipeline and in the example *)

Lemma replace_chain_by_new_node_witness :
  (∃ g', Graph.replace cpython_hash_None
           (Many [Sample.A; Sample.B; Sample.C]) Sample.fused Sample.pipeline
         = (inr (), g')
     ∧ (UStr "P", UStr "fused", Node.output_shape Sample.P) ∈ Graph.edges g'
     ∧ (UStr "fused", UStr "S", Node.output_shape Sample.fused)
       ∈ Graph.edges g')
  ∧ Graph.replace cpython_hash_None
      (Many [Sample.A; Sample.B; Sample.C]) Sample.fused Sample.chain
    = (inr (), {| Graph.nodes := {[UStr "fused" := Sample.fused]};
                  Graph.edges := [] |}).
Proof.
  split.
  - destruct (proj1 (replace_chain_by_new_node cpython_hash_None)
                Sample.pipeline Sample.A Sample.B Sample.C Sample.fused)
      as (g' & ein & eout & Hrun & _ & Hedges & _ & Hin & _ & Hout).
    + by_computation.
    + vm_compute. reflexivity.
    + vm_compute. reflexivity.
    + vm_compute. reflexivity.
    + discriminate.
    + discriminate.
    + discriminate.
    + vm_compute. reflexivity.
    + refine (proj1 (Forall_forall
                       (λ e : edge, e.1.1 ≠ Node.id Sample.fused
                                    ∧ e.1.2 ≠ Node.id Sample.fused)
                       (Graph.edges Sample.pipeline)) _).
      by_computation.
    + refine (proj1 (Forall_forall
                       (λ e : edge,
                          e.1.2 = Node.id Sample.A →
                          is_Some (Graph.nodes Sample.pipeline !! e.1.1)
                          ∧ (e.1.1 ∉ [Node.id Sample.A; Node.id Sample.B;
                                      Node.id Sample.C]))
                       (Graph.edges Sample.pipeline)) _).
      by_computation.
    + refine (proj1 (Forall_forall
                       (λ e : edge,
                          e.1.1 = Node.id Sample.C →
                          is_Some (Graph.nodes Sample.pipeline !! e.1.2)
                          ∧ (e.1.2 ∉ [Node.id Sample.A; Node.id Sample.B;
                                      Node.id Sample.C]))
                       (Graph.edges Sample.pipeline)) _).
      by_computation.
    + exists g'. split; [done|]. rewrite Hedges. split.
      * apply elem_of_app. right. apply elem_of_app. left. apply Hin.
        exists (UStr "P"), Sample.P. split; [by_computation|].
        split; vm_compute; reflexivity.
      * apply elem_of_app. right. apply elem_of_app. right. apply Hout.
        exists (UStr "S"). split; [by_computation|reflexivity].
  - rewrite chain_nodes_edges.
    apply (proj2 (replace_chain_by_new_node cpython_hash_None)
             Sample.A Sample.B Sample.C Sample.fused); discriminate.
Defined.

(** ** Keys and identifiers agree *)

Section keyed_invariant.

Variable hash_None : Z.

Lemma for_each_preserves {A : Type} (I : Graph.t → Prop)
    (body : A → Graph.M unit) xs :
  (∀ x g, I g → I (body x g).2) →
  ∀ g, I g → I (Graph.for_each xs body g).2.
Proof.
  intros Hbody. induction xs as [|x xs IH]; intros g Hg; [done|].
  rewrite for_each_cons. specialize (Hbody x g Hg).
  destruct (body x g) as [[e|[]] g1]; [done|]. by apply IH.
Qed.

Lemma keyed_init : Graph.keyed Graph.__init__.
Proof. apply map_Forall_empty. Qed.

Lemma keyed_add_node node g :
  Graph.keyed g →
  Graph.keyed (Graph.state_after (Graph.add_node hash_None node) g).
Proof. intros Hg. by apply map_Forall_insert_2. Qed.

Lemma keyed_add_edge n1 n2 l g :
  Graph.keyed g →
  Graph.keyed (Graph.state_after (Graph.add_edge hash_None n1 n2 l) g).
Proof.
  intros Hg. unfold Graph.state_after, Graph.add_edge, Graph.modify. cbn.
  by case_decide.
Qed.

Lemma keyed_add_edge_by_id v1 v2 l g :
  Graph.keyed g →
  Graph.keyed (Graph.state_after (Graph.add_edge_by_id v1 v2 l) g).
Proof. done. Qed.

Lemma keyed_remove ns g :
  Graph.keyed g →
  Graph.keyed (Graph.state_after (Graph.remove hash_None ns) g).
Proof.
  unfold Graph.state_after, Graph.remove.
  apply (for_each_preserves Graph.keyed). clear g. intros n g Hg.
  cbv beta zeta. rewrite bind_unfold. cbn. unfold Graph.del_node. cbn.
  destruct (Graph.nodes g !! Node.id n); [|done].
  cbn. by apply map_Forall_delete.
Qed.

(** [replace] keeps the agreement, also when it raises. *)
Lemma keyed_replace ns node g :
  Graph.keyed g →
  Graph.keyed (Graph.state_after (Graph.replace hash_None ns node) g).
Proof.
  intros Hg. unfold Graph.state_after. rewrite replace_unfold. cbv zeta.
  set (g1 := if bool_decide _ then g else _).
  assert (Hg1 : Graph.keyed g1).
  { subst g1. case_bool_decide; [done|]. by apply map_Forall_insert_2. }
  clearbody g1.
  assert (Hin : ∀ k g', Graph.keyed g' →
                 Graph.keyed (rewire_in hash_None node k g').2).
  { intros k g' Hg'. rewrite bind_unfold. unfold Graph.nodes_at.
    destruct (Graph.nodes g' !! k); [by apply keyed_add_edge|done]. }
  assert (Hout : ∀ k g', Graph.keyed g' →
                 Graph.keyed (rewire_out hash_None node k g').2).
  { intros k g' Hg'. rewrite bind_unfold. cbn [Graph.gets].
    by apply keyed_add_edge. }
  destruct (head (as_list ns)) as [first|]; [|done].
  pose proof (for_each_preserves Graph.keyed _
                (Graph.incoming hash_None g1 first) Hin g1 Hg1) as Hg2.
  destruct (Graph.for_each _ _ g1) as [[e|[]] g2]; [done|].
  cbn [snd] in Hg2.
  destruct (last (as_list ns)) as [final|]; [|done].
  pose proof (for_each_preserves Graph.keyed _
                (Graph.outgoing hash_None g2 (One (Some final)))
                Hout g2 Hg2) as Hg3.
  destruct (Graph.for_each _ _ g2) as [[e|[]] g3]; [done|].
  cbn [snd] in Hg3.
  apply (for_each_preserves Graph.keyed); [|done].
  intros n g' Hg'. destruct (_ && _); [done|]. by apply keyed_remove.
Qed.

End keyed_invariant.

(** * Further properties of the graph operations *)

Section storage_properties.

Variable hash_None : Z.

Abbreviation add_node := (Graph.add_node hash_None).
Abbreviation remove := (Graph.remove hash_None).

Lemma graph_eta (g : Graph.t) :
  {| Graph.nodes := Graph.nodes g; Graph.edges := Graph.edges g |} = g.
Proof. by destruct g. Qed.

Lemma filter_all {A : Type} (P : A → Prop) `{!∀ x, Decision (P x)}
    (l : list A) :
  (∀ x, x ∈ l → P x) → filter P l = l.
Proof.
  induction l as [|x l IH]; intros Hl; [reflexivity|].
  rewrite filter_cons_True by (apply Hl, elem_of_cons; by left).
  f_equal. apply IH. intros y Hy. apply Hl, elem_of_cons. by right.
Qed.

(** X1. [add_node] always returns; afterwards indexing the graph with the
    identifier of the node gives that node, every other key and the edge
    list are as before, and a node stored earlier under the same identifier
    is overwritten: the last write wins and the mapping does not grow. *)
Theorem add_node_then_getitem g n :
  (add_node n g).1 = inr ()
  ∧ Graph.getitem (Graph.state_after (add_node n) g) (Node.id n) = Some n
  ∧ (∀ k, k ≠ Node.id n →
       Graph.getitem (Graph.state_after (add_node n) g) k
       = Graph.getitem g k)
  ∧ Graph.edges (Graph.state_after (add_node n) g) = Graph.edges g
  ∧ (∀ m, Node.id m = Node.id n →
       Graph.state_after (add_node m;; add_node n) g
       = Graph.state_after (add_node n) g).
Proof.
  unfold Graph.state_after, Graph.getitem. cbn.
  split; [done|]. split; [apply lookup_insert_eq|].
  split; [intros k Hk; by apply lookup_insert_ne|]. split; [done|].
  intros m Hm. rewrite bind_unfold. cbn. rewrite Hm.
  by rewrite insert_insert_eq.
Qed.

(** X2. Adding a node whose identifier is neither a key of the mapping nor
    an endpoint of an edge, and removing it again, gives back the graph
    unchanged. *)
Theorem add_node_then_remove g n :
  Graph.nodes g !! Node.id n = None →
  (∀ e : edge, e ∈ Graph.edges g →
     e.1.1 ≠ Node.id n ∧ e.1.2 ≠ Node.id n) →
  (add_node n;; remove (One n)) g = (inr (), g).
Proof.
  intros Hfresh Hedges. rewrite bind_unfold. cbn [Graph.add_node Graph.modify].
  rewrite remove_one_present by (cbn; rewrite lookup_insert_eq; by eexists).
  cbn [Graph.nodes Graph.edges Graph.id].
  rewrite delete_insert_eq, delete_id by done.
  rewrite filter_all by done. by rewrite graph_eta.
Qed.

(** X3. Removing stored nodes with distinct identifiers does not depend on
    the order in which they are listed. *)
Theorem remove_order_irrelevant g ns ns' :
  ns ≡ₚ ns' →
  NoDup (Node.id <$> ns) →
  (∀ n, n ∈ ns → is_Some (Graph.nodes g !! Node.id n)) →
  remove (Many ns) g = remove (Many ns') g
  ∧ (remove (Many ns) g).1 = inr ().
Proof.
  intros Hperm Hnd Hstored.
  destruct (remove_many_ok hash_None ns g Hnd Hstored)
    as (g1 & Hrun1 & Hnodes1 & Hedges1).
  destruct (remove_many_ok hash_None ns' g)
    as (g2 & Hrun2 & Hnodes2 & Hedges2).
  { by rewrite <- Hperm. }
  { intros n Hn. apply Hstored. by rewrite Hperm. }
  rewrite Hrun1, Hrun2. split; [|done]. f_equal.
  rewrite <- (graph_eta g1), <- (graph_eta g2). f_equal.
  - apply map_eq. intros k. rewrite Hnodes1, Hnodes2.
    destruct (decide (k ∈ Node.id <$> ns)) as [Hk|Hk].
    + rewrite decide_True; [done|]. by rewrite <- Hperm.
    + rewrite decide_False; [done|]. by rewrite <- Hperm.
  - rewrite Hedges1, Hedges2. apply list_filter_iff.
    intros e. by rewrite Hperm.
Qed.

End storage_properties.

Section invariant_properties.

Variable hash_None : Z.

(** A property of the graph that [add_node], [add_edge] and [remove] keep is
    kept by [replace], whether it returns or raises. *)
Lemma replace_preserves (I : Graph.t → Prop) :
  (∀ g n, I g → I (Graph.state_after (Graph.add_node hash_None n) g)) →
  (∀ g n1 n2 l, I g →
     I (Graph.state_after (Graph.add_edge hash_None n1 n2 l) g)) →
  (∀ g ns, I g → I (Graph.state_after (Graph.remove hash_None ns) g)) →
  ∀ ns node g, I g →
    I (Graph.state_after (Graph.replace hash_None ns node) g).
Proof.
  intros Hnode Hedge Hremove ns node g Hg.
  unfold Graph.state_after. rewrite replace_unfold. cbv zeta.
  set (g1 := if bool_decide _ then g else _).
  assert (Hg1 : I g1).
  { subst g1. case_bool_decide; [done|]. apply (Hnode g node Hg). }
  clearbody g1.
  assert (Hin : ∀ k g', I g' → I (rewire_in hash_None node k g').2).
  { intros k g' Hg'. rewrite bind_unfold. unfold Graph.nodes_at.
    destruct (Graph.nodes g' !! k); [by apply Hedge|done]. }
  assert (Hout : ∀ k g', I g' → I (rewire_out hash_None node k g').2).
  { intros k g' Hg'. rewrite bind_unfold. cbn [Graph.gets]. by apply Hedge. }
  destruct (head (as_list ns)) as [first|]; [|done].
  pose proof (for_each_preserves I _
                (Graph.incoming hash_None g1 first) Hin g1 Hg1) as Hg2.
  destruct (Graph.for_each _ _ g1) as [[e|[]] g2]; [done|].
  cbn [snd] in Hg2.
  destruct (last (as_list ns)) as [final|]; [|done].
  pose proof (for_each_preserves I _
                (Graph.outgoing hash_None g2 (One (Some final)))
                Hout g2 Hg2) as Hg3.
  destruct (Graph.for_each _ _ g2) as [[e|[]] g3]; [done|].
  cbn [snd] in Hg3.
  apply (for_each_preserves I); [|done].
  intros n g' Hg'. destruct (_ && _); [done|]. by apply Hremove.
Qed.

(** X4. In the empty graph, and after every operation on a graph in which
    it holds, each key of the node mapping is the identifier of the node
    stored under it; this holds for the graph that [remove] or [replace]
    leaves behind when it raises, too.  So a successful lookup
    [graph[k]] returns a node whose [id] is [k]. *)
Theorem keys_agree_with_ids :
  Graph.keyed Graph.__init__
  ∧ (∀ g, Graph.keyed g →
     (∀ n, Graph.keyed (Graph.state_after (Graph.add_node hash_None n) g))
     ∧ (∀ n1 n2 l,
          Graph.keyed
            (Graph.state_after (Graph.add_edge hash_None n1 n2 l) g))
     ∧ (∀ v1 v2 l,
          Graph.keyed (Graph.state_after (Graph.add_edge_by_id v1 v2 l) g))
     ∧ (∀ ns,
          Graph.keyed (Graph.state_after (Graph.remove hash_None ns) g))
     ∧ (∀ ns node,
          Graph.keyed
            (Graph.state_after (Graph.replace hash_None ns node) g))
     ∧ (∀ k n, Graph.getitem g k = Some n → Node.id n = k)).
Proof.
  split; [apply keyed_init|]. intros g Hg.
  split; [intros n; by apply keyed_add_node|].
  split; [intros n1 n2 l; by apply keyed_add_edge|].
  split; [intros v1 v2 l; by apply keyed_add_edge_by_id|].
  split; [intros ns; by apply keyed_remove|].
  split; [intros ns node; by apply keyed_replace|].
  intros k n Hk. by apply (Hg k n).
Qed.

Lemma remove_edges_NoDup ns g :
  NoDup (Graph.edges g) →
  NoDup (Graph.edges (Graph.state_after (Graph.remove hash_None ns) g)).
Proof.
  unfold Graph.state_after, Graph.remove.
  apply (for_each_preserves (λ g, NoDup (Graph.edges g))). clear g.
  intros n g Hg. cbv beta zeta. rewrite bind_unfold. cbn.
  unfold Graph.del_node. cbn.
  destruct (Graph.nodes g !! Node.id n); cbn; by apply NoDup_filter.
Qed.

(** X5. An edge list without duplicates stays without duplicates under
    [add_node], [add_edge], [remove] and [replace], also when these raise.
    [add_edge_by_id] breaks this when it is given an edge that is already
    present. *)
Theorem edge_list_stays_duplicate_free g :
  NoDup (Graph.edges g) →
  (∀ n, NoDup (Graph.edges
                 (Graph.state_after (Graph.add_node hash_None n) g)))
  ∧ (∀ n1 n2 l,
       NoDup (Graph.edges
                (Graph.state_after (Graph.add_edge hash_None n1 n2 l) g)))
  ∧ (∀ ns,
       NoDup (Graph.edges
                (Graph.state_after (Graph.remove hash_None ns) g)))
  ∧ (∀ ns node,
       NoDup (Graph.edges
                (Graph.state_after (Graph.replace hash_None ns node) g)))
  ∧ (∀ v1 v2 l, (v1, v2, l) ∈ Graph.edges g →
       ¬ NoDup (Graph.edges
                  (Graph.state_after (Graph.add_edge_by_id v1 v2 l) g))).
Proof.
  intros Hg. split; [done|].
  split; [intros n1 n2 l; by apply add_edge_NoDup|].
  split; [intros ns; by apply remove_edges_NoDup|].
  split.
  - intros ns node.
    apply (replace_preserves (λ g, NoDup (Graph.edges g))); try done.
    + intros g' n1 n2 l Hg'. by apply add_edge_NoDup.
    + intros g' ns' Hg'. by apply remove_edges_NoDup.
  - intros v1 v2 l He Hnd. cbn in Hnd.
    apply NoDup_app in Hnd as (_ & Hdisj & _).
    apply (Hdisj _ He). by apply list_elem_of_singleton.
Qed.

(** *** Queries *)

(** X6. [outgoing] of a list of nodes lists each target once, and lists
    exactly the targets that [outgoing] of some node of the list reports;
    for the empty list it is empty. *)
Theorem outgoing_of_list_is_union g (ns : list (option Node.t)) :
  NoDup (Graph.outgoing hash_None g (Many ns))
  ∧ (∀ k, k ∈ Graph.outgoing hash_None g (Many ns) ↔
          ∃ n, n ∈ ns ∧ k ∈ Graph.outgoing hash_None g (One n))
  ∧ Graph.outgoing hash_None g (Many []) = [].
Proof.
  split; [apply outgoing_NoDup|]. split.
  - intros k. rewrite elem_of_outgoing. cbn [as_list]. split.
    + intros (s & l & (n & -> & Hn)%list_elem_of_fmap & He).
      exists n. split; [done|]. apply elem_of_outgoing.
      exists (Graph.id hash_None n), l. split; [|done].
      cbn. by apply list_elem_of_singleton.
    + intros (n & Hn & (s & l & Hs & He)%elem_of_outgoing).
      cbn in Hs. apply list_elem_of_singleton in Hs as ->.
      exists (Graph.id hash_None n), l. split; [|done].
      by apply list_elem_of_fmap_2.
  - apply outgoing_no_edge. intros e _. cbn. apply not_elem_of_nil.
Qed.

(** X7. [incoming] and [outgoing] report the same edges: the identifier of
    [p] is among the sources of [n] exactly when the identifier of [n] is
    among the targets of [p].  [incoming(n)] lists [p] once for every edge
    from [p] to [n], parallel edges included. *)
Theorem incoming_outgoing_agree g p n :
  (Node.id p ∈ Graph.incoming hash_None g n ↔
   Node.id n ∈ Graph.outgoing hash_None g (One (Some p)))
  ∧ length (filter (λ k, k = Node.id p) (Graph.incoming hash_None g n))
    = length (filter (λ e : edge, e.1.1 = Node.id p ∧ e.1.2 = Node.id n)
                (Graph.edges g)).
Proof.
  split.
  - rewrite elem_of_incoming, elem_of_outgoing. cbn. split.
    + intros [l Hl]. exists (Node.id p), l.
      split; [by apply list_elem_of_singleton|done].
    + intros (s & l & ->%list_elem_of_singleton & Hl). by exists l.
  - unfold Graph.incoming. cbn [Graph.id].
    induction (Graph.edges g) as [|e es IH]; [reflexivity|].
    destruct (decide (e.1.2 = Node.id n)) as [Hd|Hd].
    + rewrite (filter_cons_True (λ e : edge, e.1.2 = Node.id n)) by done.
      rewrite fmap_cons.
      destruct (decide (e.1.1 = Node.id p)) as [Hs|Hs].
      * rewrite !filter_cons_True by done. cbn. by rewrite IH.
      * rewrite !filter_cons_False by tauto. apply IH.
    + rewrite (filter_cons_False (λ e : edge, e.1.2 = Node.id n)) by done.
      rewrite filter_cons_False by tauto. apply IH.
Qed.

(** X8. When the single source of [n] is an identifier that is not a key of
    the node mapping, [siblings(n)] looks up the targets of [None]; unless
    an edge starts at [hash(None)] the result is the empty list, and [n] is
    not among its own siblings. *)
Theorem siblings_of_dangling_parent g n p :
  Graph.incoming hash_None g n = [p] →
  Graph.nodes g !! p = None →
  (∀ e : edge, e ∈ Graph.edges g → e.1.1 ≠ UInt hash_None) →
  Graph.siblings hash_None g n = [].
Proof.
  intros Hinc Hp Hnone. unfold Graph.siblings, Graph.getitem.
  rewrite Hinc, Hp. rewrite outgoing_no_edge; [done|].
  intros e He. cbn. rewrite list_elem_of_singleton. by apply Hnone.
Qed.

End invariant_properties.

(** *** More on replace *)

Section more_replace_properties.

Variable hash_None : Z.

Abbreviation replace := (Graph.replace hash_None).

(** X9. [replace] with an empty list of nodes raises [IndexError] at
    [nodes[0]].  By then the new node is already stored when its identifier
    was not a key of the mapping; nothing else has changed. *)
Theorem replace_empty_list g node :
  replace (Many []) node g
  = (inl (IndexError "list index out of range"),
     if decide (is_Some (Graph.nodes g !! Node.id node)) then g
     else {| Graph.nodes := <[Node.id node := node]> (Graph.nodes g);
             Graph.edges := Graph.edges g |}).
Proof.
  rewrite replace_unfold. cbn [as_list head]. cbv zeta.
  destruct (decide (is_Some (Graph.nodes g !! Node.id node))) as [Hin|Hin].
  - by rewrite bool_decide_eq_true_2.
  - by rewrite bool_decide_eq_false_2.
Qed.

(** X10. When a source of the first replaced node is not a key of the node
    mapping, [replace] raises [KeyError] for the first such source.  The
    replaced nodes are not removed: the mapping is as before, plus the new
    node when its identifier was not a key.  The edge list is the old one
    followed, once each, by the edges that were not present from the
    earlier sources into the new node, labelled with the [output_shape] of
    their source. *)
Theorem replace_missing_source g ns first node pre k post :
  head (as_list ns) = Some first →
  Graph.incoming hash_None g first = pre ++ k :: post →
  (∀ j, j ∈ pre → is_Some (Graph.nodes g !! j)) →
  Graph.nodes g !! k = None →
  k ≠ Node.id node →
  ∃ g' extra,
    replace ns node g = (inl (KeyError k), g')
    ∧ Graph.nodes g'
      = (if decide (is_Some (Graph.nodes g !! Node.id node))
         then Graph.nodes g
         else <[Node.id node := node]> (Graph.nodes g))
    ∧ Graph.edges g' = Graph.edges g ++ extra
    ∧ NoDup extra
    ∧ (∀ e, e ∈ extra ↔
            (e ∉ Graph.edges g)
            ∧ ∃ j n, j ∈ pre ∧ Graph.nodes g !! j = Some n
                ∧ e = (Node.id n, Node.id node, Node.output_shape n)).
Proof.
  intros Hfirst Hinc Hpre Hk Hne.
  rewrite replace_unfold, Hfirst. cbv zeta.
  set (g1 := if bool_decide _ then g else _).
  assert (Hnodes1 : Graph.nodes g1
                    = if decide (is_Some (Graph.nodes g !! Node.id node))
                      then Graph.nodes g
                      else <[Node.id node := node]> (Graph.nodes g)).
  { subst g1.
    destruct (decide (is_Some (Graph.nodes g !! Node.id node))) as [Hin|Hin].
    - by rewrite bool_decide_eq_true_2.
    - by rewrite bool_decide_eq_false_2. }
  assert (Hedges1 : Graph.edges g1 = Graph.edges g).
  { subst g1. by destruct (bool_decide _). }
  assert (Hinc1 : Graph.incoming hash_None g1 first = pre ++ k :: post).
  { unfold Graph.incoming. rewrite Hedges1. apply Hinc. }
  assert (Hsame : ∀ j, is_Some (Graph.nodes g !! j) ∨ j ≠ Node.id node →
                       Graph.nodes g1 !! j = Graph.nodes g !! j).
  { intros j Hj. rewrite Hnodes1. destruct (decide _) as [|Hnot]; [done|].
    apply lookup_insert_ne. intros <-. by destruct Hj. }
  clearbody g1. rewrite Hinc1, for_each_app.
  destruct (rewire_in_exact hash_None node pre g1)
    as (extra & Hloop & Hnd & Hiff).
  { intros j Hj. rewrite Hsame; [by apply Hpre|]. left. by apply Hpre. }
  rewrite Hloop, for_each_cons, bind_unfold. unfold Graph.nodes_at at 1.
  cbn [Graph.nodes]. rewrite Hsame, Hk by (by right).
  eexists _, extra. split; [done|]. cbn [Graph.nodes Graph.edges].
  split; [done|]. split; [by rewrite Hedges1|]. split; [done|].
  intros e. rewrite Hiff, Hedges1. split.
  - intros (He & j & n & Hj & Hn & ->). split; [done|]. exists j, n.
    split; [done|]. split; [|done]. rewrite <- Hn. symmetry.
    apply Hsame. left. by apply Hpre.
  - intros (He & j & n & Hj & Hn & ->). split; [done|]. exists j, n.
    split; [done|]. split; [|done]. rewrite <- Hn.
    apply Hsame. left. by apply Hpre.
Qed.

(** The run of [replace([a], new)] when [new] carries the identifier of the
    stored node [a] but is another object. *)
Lemma replace_other_object_run g a new :
  is_Some (Graph.nodes g !! Node.id a) →
  Node.id new = Node.id a →
  Node.addr new ≠ Node.addr a →
  (∀ k, k ∈ Graph.incoming hash_None g a → is_Some (Graph.nodes g !! k)) →
  replace (One a) new g
  = (inr (), {| Graph.nodes := delete (Node.id a) (Graph.nodes g);
                Graph.edges := untouched (Node.id a) (Graph.edges g) |}).
Proof.
  intros Hstored Hid Haddr Hsources.
  rewrite replace_unfold. cbn [as_list head last].
  rewrite bool_decide_eq_true_2 by (by rewrite Hid). cbv zeta.
  destruct (rewire_in_ok hash_None new (Graph.incoming hash_None g a) g
              Hsources)
    as (g2 & extra1 & Hloop1 & Hnodes1 & Hedges1 & Hextra1 & _).
  rewrite Hloop1.
  destruct (rewire_out_ok hash_None new
              (Graph.outgoing hash_None g2 (One (Some a))) g2)
    as (g3 & extra2 & Hloop2 & Hnodes2 & Hedges2 & Hextra2 & _).
  rewrite Hloop2, for_each_cons. unfold Node.same.
  rewrite bool_decide_eq_false_2 by congruence. cbn [andb].
  rewrite remove_one_present by (by rewrite Hnodes2, Hnodes1).
  rewrite for_each_nil, Hnodes2, Hnodes1, Hedges2, Hedges1.
  f_equal. f_equal. rewrite !filter_app.
  rewrite (filter_none _ extra1), (filter_none _ extra2).
  - by rewrite !app_nil_r.
  - intros e He [Hs _]. destruct (Hextra2 e He) as (k & _ & ->).
    cbn in Hs. congruence.
  - intros e He [_ Hd]. destruct (Hextra1 e He) as (k & n & _ & _ & ->).
    cbn in Hd. congruence.
Qed.

(** X11. Replacing a stored node [a] by another node object that carries
    the same identifier does what [remove(a)] does: the collapse path stores
    nothing, the test [n == node] is false, and [a] goes with every edge
    that touches its identifier, the edges just added included.  Afterwards
    the identifier is no key of the mapping. *)
Theorem replace_by_other_object_with_same_id g a new :
  is_Some (Graph.nodes g !! Node.id a) →
  Node.id new = Node.id a →
  Node.addr new ≠ Node.addr a →
  (∀ k, k ∈ Graph.incoming hash_None g a → is_Some (Graph.nodes g !! k)) →
  replace (One a) new g = Graph.remove hash_None (One a) g
  ∧ (replace (One a) new g).1 = inr ()
  ∧ Graph.getitem (Graph.state_after (replace (One a) new) g) (Node.id new)
    = None.
Proof.
  intros Hstored Hid Haddr Hsources. unfold Graph.state_after.
  rewrite replace_other_object_run, remove_one_present by done.
  split; [done|]. split; [done|].
  unfold Graph.getitem. cbn. rewrite Hid. apply lookup_delete_eq.
Qed.

(** X12. In the "meaningful" mode the identifier made up for a sequence of
    one node with a string identifier is the identifier of that node.  So
    when [n] is stored and the sources of [n] are stored nodes, folding [n]
    into a newly built node, another object, with the identifier
    [sequence_id([n])] returns normally, removes [n] with the edges that
    touch it, and stores nothing in its place. *)
Theorem fold_single_node_with_meaningful_id g n new random_bits s :
  Node.id n = UStr s →
  sequence_id true random_bits [n] = inr (Node.id new) →
  Node.addr new ≠ Node.addr n →
  is_Some (Graph.nodes g !! Node.id n) →
  (∀ k, k ∈ Graph.incoming hash_None g n → is_Some (Graph.nodes g !! k)) →
  sequence_id true random_bits [n] = inr (Node.id n)
  ∧ replace (Many [n]) new g
    = (inr (), {| Graph.nodes := delete (Node.id n) (Graph.nodes g);
                  Graph.edges := untouched (Node.id n) (Graph.edges g) |})
  ∧ Graph.getitem (Graph.state_after (replace (Many [n]) new) g)
      (Node.id new) = None.
Proof.
  intros Hs Hseq Haddr Hstored Hsources.
  assert (Hown : sequence_id true random_bits [n] = inr (Node.id n)).
  { unfold sequence_id. cbn. by rewrite Hs. }
  assert (Hid : Node.id new = Node.id n) by congruence.
  assert (Hrun : replace (Many [n]) new g
    = (inr (), {| Graph.nodes := delete (Node.id n) (Graph.nodes g);
                  Graph.edges := untouched (Node.id n) (Graph.edges g) |})).
  { by apply (replace_other_object_run g n new). }
  split; [done|]. split; [done|].
  unfold Graph.state_after, Graph.getitem. rewrite Hrun. cbn.
  rewrite Hid. apply lookup_delete_eq.
Qed.

Lemma filter_ext_in {A : Type} (P Q : A → Prop)
    `{!∀ x, Decision (P x)} `{!∀ x, Decision (Q x)} (l : list A) :
  (∀ x, x ∈ l → (P x ↔ Q x)) → filter P l = filter Q l.
Proof.
  induction l as [|x l IH]; intros Hl; [reflexivity|].
  assert (Hx : P x ↔ Q x) by (apply Hl, elem_of_cons; by left).
  assert (Htl : filter P l = filter Q l).
  { apply IH. intros y Hy. apply Hl, elem_of_cons. by right. }
  destruct (decide (P x)) as [HP|HP].
  - rewrite !filter_cons_True by tauto. by rewrite Htl.
  - rewrite !filter_cons_False by tauto. done.
Qed.

Lemma NoDup_fmap_eq {A B : Type} (f : A → B) (l : list A) x y :
  NoDup (f <$> l) → x ∈ l → y ∈ l → f x = f y → x = y.
Proof.
  induction l as [|a l IH]; intros Hnd Hx Hy Hxy;
    [by apply elem_of_nil in Hx|].
  rewrite fmap_cons in Hnd. apply NoDup_cons in Hnd as [Ha Hnd].
  apply elem_of_cons in Hx as [->|Hx], Hy as [->|Hy]; [done| | |by apply IH].
  - exfalso. apply Ha. rewrite Hxy. by apply list_elem_of_fmap_2.
  - exfalso. apply Ha. rewrite <- Hxy. by apply list_elem_of_fmap_2.
Qed.

(** In the collapse case the last loop of [replace] removes the nodes of the
    list that are not the new node. *)
Lemma remove_old_collapse ns node g :
  Graph.for_each ns (remove_old hash_None true node) g
  = Graph.remove hash_None
      (Many (filter (λ n, Node.same n node = false) ns)) g.
Proof.
  revert g. induction ns as [|n ns IH]; intros g; [reflexivity|].
  rewrite for_each_cons. cbn [andb].
  destruct (Node.same n node) eqn:Hsame.
  - rewrite filter_cons_False by (by rewrite Hsame). apply IH.
  - rewrite filter_cons_True by done.
    rewrite remove_one, !remove_cons.
    destruct (Graph.nodes g !! Node.id n); [|reflexivity].
    rewrite remove_nil. apply IH.
Qed.

(** X13. Collapsing a list of stored nodes, distinct objects with distinct
    identifiers, into one of them.  When the sources of the first node are
    stored nodes, [replace(nodes, node)] with [node] in the list returns
    normally; [node] keeps its entry, the other nodes of the list lose
    theirs, and no other key changes.  The edge list is the old one followed
    by new edges that touch [node], without the edges that touch one of the
    removed nodes. *)
Theorem replace_collapse_into_member g ns first final node :
  head ns = Some first →
  last ns = Some final →
  node ∈ ns →
  NoDup (Node.id <$> ns) →
  NoDup (Node.addr <$> ns) →
  (∀ n, n ∈ ns → is_Some (Graph.nodes g !! Node.id n)) →
  (∀ k, k ∈ Graph.incoming hash_None g first →
     is_Some (Graph.nodes g !! k)) →
  ∃ g' extra,
    replace (Many ns) node g = (inr (), g')
    ∧ (∀ k, Graph.nodes g' !! k =
            if decide (k ∈ Node.id
                         <$> filter (λ n, Node.id n ≠ Node.id node) ns)
            then None else Graph.nodes g !! k)
    ∧ Graph.edges g'
      = untouched_all
          (Node.id <$> filter (λ n, Node.id n ≠ Node.id node) ns)
          (Graph.edges g ++ extra)
    ∧ (∀ e : edge, e ∈ extra →
         e.1.1 = Node.id node ∨ e.1.2 = Node.id node)
    ∧ Graph.getitem g' (Node.id node) = Graph.getitem g (Node.id node).
Proof.
  intros Hfirst Hfinal Hnode Hids Haddrs Hstored Hsources.
  rewrite replace_unfold. cbn [as_list]. rewrite Hfirst, Hfinal.
  rewrite bool_decide_eq_true_2 by (by apply Hstored). cbv zeta.
  destruct (rewire_in_ok hash_None node
              (Graph.incoming hash_None g first) g Hsources)
    as (g2 & extra1 & Hloop1 & Hnodes1 & Hedges1 & Hextra1 & _).
  rewrite Hloop1.
  destruct (rewire_out_ok hash_None node
              (Graph.outgoing hash_None g2 (One (Some final))) g2)
    as (g3 & extra2 & Hloop2 & Hnodes2 & Hedges2 & Hextra2 & _).
  rewrite Hloop2, remove_old_collapse.
  rewrite (filter_ext_in (λ n, Node.same n node = false)
             (λ n, Node.id n ≠ Node.id node)).
  2:{ intros n Hn. unfold Node.same. rewrite bool_decide_eq_false. split.
      - intros Ha Hi. apply Ha. f_equal.
        by apply (NoDup_fmap_eq Node.id ns).
      - intros Hi Ha. apply Hi. f_equal.
        by apply (NoDup_fmap_eq Node.addr ns). }
  destruct (remove_many_ok hash_None
              (filter (λ n, Node.id n ≠ Node.id node) ns) g3)
    as (g' & Hrun & Hnodes & Hedges).
  { apply (sublist_NoDup _ (Node.id <$> ns)); [done|].
    apply fmap_sublist, sublist_filter. }
  { intros n [_ Hn]%list_elem_of_filter.
    rewrite Hnodes2, Hnodes1. by apply Hstored. }
  exists g', (extra1 ++ extra2). split; [done|].
  split; [intros k; by rewrite Hnodes, Hnodes2, Hnodes1|].
  split; [by rewrite Hedges, Hedges2, Hedges1, app_assoc|].
  split.
  - intros e [He|He]%elem_of_app.
    + destruct (Hextra1 e He) as (k & n & _ & _ & ->). by right.
    + destruct (Hextra2 e He) as (k & _ & ->). by left.
  - unfold Graph.getitem. rewrite Hnodes, Hnodes2, Hnodes1.
    rewrite decide_False; [done|].
    intros (n & Heq & [Hne _]%list_elem_of_filter)%list_elem_of_fmap.
    by apply Hne.
Qed.

End more_replace_properties.

(** ** sequence_id, detect_framework and search *)

Lemma string_app_assoc (a b c : string) : (a +:+ b) +:+ c = a +:+ b +:+ c.
Proof.
  induction a as [|x a IH]; [reflexivity|].
  change (String x ((a +:+ b) +:+ c) = String x (a +:+ b +:+ c)).
  by rewrite IH.
Qed.

Lemma concat_cons_nonempty sep (x : string) xs :
  xs ≠ [] → String.concat sep (x :: xs) = x +:+ sep +:+ String.concat sep xs.
Proof. by destruct xs. Qed.

Lemma concat_flatten_head sep ys zs :
  ys ≠ [] →
  String.concat sep (String.concat sep ys :: zs)
  = String.concat sep (ys ++ zs).
Proof.
  induction ys as [|y ys IH]; intros Hne; [done|].
  destruct ys as [|y' ys]; [reflexivity|].
  rewrite (concat_cons_nonempty sep y (y' :: ys)) by done.
  change ((y :: y' :: ys) ++ zs) with (y :: ((y' :: ys) ++ zs)).
  rewrite (concat_cons_nonempty sep y ((y' :: ys) ++ zs)) by done.
  rewrite <- IH by done.
  destruct zs as [|z zs]; [reflexivity|].
  rewrite !(concat_cons_nonempty sep _ (z :: zs)) by done.
  by rewrite !string_app_assoc.
Qed.

Lemma concat_same_tail sep xs l1 l2 :
  l1 ≠ [] → l2 ≠ [] →
  String.concat sep l1 = String.concat sep l2 →
  String.concat sep (xs ++ l1) = String.concat sep (xs ++ l2).
Proof.
  intros H1 H2 Heq. induction xs as [|x xs IH]; [done|].
  cbn [app]. rewrite !concat_cons_nonempty; [by rewrite IH| |].
  - by destruct xs, l2.
  - by destruct xs, l1.
Qed.

Lemma join_items_strings i ss : join_items i (UStr <$> ss) = inr ss.
Proof.
  revert i. induction ss as [|s ss IH]; intros i; [reflexivity|].
  cbn. by rewrite IH.
Qed.

Lemma join_items_inv i ids ss :
  join_items i ids = inr ss → ids = UStr <$> ss.
Proof.
  revert i ss. induction ids as [|[s|z] ids IH]; intros i ss Hrun.
  - by injection Hrun as <-.
  - cbn in Hrun. destruct (join_items (S i) ids) as [e|items] eqn:Hrest;
      [done|].
    injection Hrun as <-. cbn. f_equal. by apply (IH (S i)).
  - done.
Qed.

Lemma join_items_int i pre z post :
  join_items i ((UStr <$> pre) ++ UInt z :: post)
  = inl (TypeError
           ("sequence item " +:+ pretty (i + length pre)%nat
              +:+ ": expected str instance, int found")).
Proof.
  revert i. induction pre as [|s pre IH]; intros i.
  - cbn. by rewrite Nat.add_0_r.
  - cbn. rewrite IH. by rewrite Nat.add_succ_comm.
Qed.

(** X14. The two policies of [sequence_id].  In the default mode the
    identifier is the number drawn.  In the "meaningful" mode, when all
    identifiers of the sequence are strings the result is their
    concatenation with [><] between them; the first identifier that is an
    integer, such as one made up in the default mode, raises [TypeError]
    with its position.  A node that carries the identifier made up for a
    group stands for the members of the group: a sequence through that node
    and the sequence through the members get the same identifier. *)
Theorem sequence_id_policies :
  (∀ r ns, sequence_id false r ns = inr (UInt r))
  ∧ (∀ r ns ss,
       Node.id <$> ns = UStr <$> ss →
       sequence_id true r ns = inr (UStr (String.concat "><" ss)))
  ∧ (∀ r pre n post z,
       (∀ m, m ∈ pre → ∃ s, Node.id m = UStr s) →
       Node.id n = UInt z →
       sequence_id true r (pre ++ n :: post)
       = inl (TypeError
                ("sequence item " +:+ pretty (length pre)
                   +:+ ": expected str instance, int found")))
  ∧ (∀ r xs ys zs folded u,
       ys ≠ [] →
       sequence_id true r ys = inr (Node.id folded) →
       sequence_id true r (xs ++ ys ++ zs) = inr u →
       sequence_id true r (xs ++ folded :: zs) = inr u).
Proof.
  assert (Hstr : ∀ r ns ss,
            Node.id <$> ns = UStr <$> ss →
            sequence_id true r ns = inr (UStr (String.concat "><" ss))).
  { intros r ns ss Hids. unfold sequence_id.
    by rewrite Hids, join_items_strings. }
  assert (Hinv : ∀ r ns u,
            sequence_id true r ns = inr u →
            ∃ ss, Node.id <$> ns = UStr <$> ss
                  ∧ u = UStr (String.concat "><" ss)).
  { intros r ns u Hrun. unfold sequence_id in Hrun.
    destruct (join_items 0 (Node.id <$> ns)) as [e|ss] eqn:Hjoin; [done|].
    exists ss. split; [by apply (join_items_inv 0)|congruence]. }
  split; [done|]. split; [done|]. split.
  - intros r pre n post z Hpre Hn. unfold sequence_id.
    assert (Hss : ∃ ss, Node.id <$> pre = UStr <$> ss).
    { clear -Hpre. induction pre as [|m pre IH]; [by exists []|].
      destruct (Hpre m) as [s Hs]; [apply elem_of_cons; by left|].
      destruct IH as [ss Hss].
      { intros x Hx. apply Hpre, elem_of_cons. by right. }
      exists (s :: ss). cbn. by rewrite Hs, Hss. }
    destruct Hss as [ss Hss].
    rewrite fmap_app, fmap_cons, Hss, Hn, join_items_int.
    assert (Hlen : length ss = length pre).
    { by rewrite <- (length_fmap UStr ss), <- Hss, length_fmap. }
    by rewrite Hlen.
  - intros r xs ys zs folded u Hne Hys Hall.
    destruct (Hinv r _ _ Hall) as (ss & Hids & ->).
    rewrite !fmap_app in Hids. symmetry in Hids.
    apply fmap_app_inv in Hids as (sx & srest & Hsx & Hrest & ->).
    symmetry in Hrest.
    apply fmap_app_inv in Hrest as (sy & sz & Hsy & Hsz & ->).
    destruct (Hinv r _ _ Hys) as (sy' & Hsy' & Hfolded).
    assert (sy' = sy) as ->.
    { assert (HUStr : Inj (=) (=) UStr) by (by intros ? ? [= ?]).
      apply (list_fmap_eq_inj UStr HUStr). congruence. }
    assert (Hsyne : sy ≠ []).
    { intros ->. destruct ys; [done|discriminate]. }
    rewrite (Hstr r (xs ++ folded :: zs)
               (sx ++ String.concat "><" sy :: sz)).
    2:{ rewrite !fmap_app, !fmap_cons. by rewrite Hsx, Hsz, Hfolded. }
    f_equal. f_equal. apply concat_same_tail; [done| |].
    + by destruct sy.
    + by apply concat_flatten_head.
Qed.

(** Class modules that belong to neither framework. *)
Abbreviation foreign c :=
  (String.prefix "torch" c = false ∧ String.prefix "tensorflow" c = false).

Lemma prefix_tensorflow_not_torch c :
  String.prefix "tensorflow" c = true → String.prefix "torch" c = false.
Proof.
  destruct c as [|a [|b c]]; cbn [String.prefix]; [done| |].
  - by destruct (Ascii.ascii_dec _ a).
  - destruct (Ascii.ascii_dec _ a); [|done].
    destruct (Ascii.ascii_dec _ b) as [<-|]; [|done]. by intros _.
Qed.

(** X15. [detect_framework] answers for the first class, the class of the
    value before its bases, whose module name starts with [torch] or with
    [tensorflow]; it returns [None] exactly when no class has such a
    module. *)
Theorem detect_framework_first_class :
  (∀ cs, detect_framework cs = None ↔ ∀ c, c ∈ cs → foreign c)
  ∧ (∀ pre c post,
       (∀ x, x ∈ pre → foreign x) →
       String.prefix "torch" c = true →
       detect_framework (pre ++ c :: post) = Some "torch")
  ∧ (∀ pre c post,
       (∀ x, x ∈ pre → foreign x) →
       String.prefix "tensorflow" c = true →
       detect_framework (pre ++ c :: post) = Some "tensorflow").
Proof.
  assert (Hskip : ∀ pre rest,
            (∀ x, x ∈ pre → foreign x) →
            detect_framework (pre ++ rest) = detect_framework rest).
  { intros pre rest. induction pre as [|x pre IH]; intros Hpre; [done|].
    destruct (Hpre x) as [Ht Hf]; [apply elem_of_cons; by left|].
    cbn. rewrite Ht, Hf. apply IH.
    intros y Hy. apply Hpre, elem_of_cons. by right. }
  split; [|split].
  - intros cs. induction cs as [|c cs IH].
    + split; [by intros _ c ?%elem_of_nil|done].
    + cbn. destruct (String.prefix "torch" c) eqn:Ht.
      { split; [done|]. intros Hall.
        destruct (Hall c) as [? _]; [apply elem_of_cons; by left|].
        congruence. }
      destruct (String.prefix "tensorflow" c) eqn:Hf.
      { split; [done|]. intros Hall.
        destruct (Hall c) as [_ ?]; [apply elem_of_cons; by left|].
        congruence. }
      rewrite IH. split.
      * intros Hall x [->|Hx]%elem_of_cons; [done|by apply Hall].
      * intros Hall x Hx. apply Hall, elem_of_cons. by right.
  - intros pre c post Hpre Hc. rewrite Hskip by done. cbn. by rewrite Hc.
  - intros pre c post Hpre Hc. rewrite Hskip by done. cbn.
    by rewrite (prefix_tensorflow_not_torch c Hc), Hc.
Qed.

(** X16. [search] returns what the pattern returns at the first node, in
    iteration order, whose match is not empty.  It returns [([], None)]
    exactly when the pattern matches at no node; what the pattern reports
    as [following] for a failed match is dropped. *)
Theorem search_first_match pattern g :
  (∀ values,
     search pattern g values = ([], None) ↔
     ∀ n, n ∈ values → (pattern g n).1 = [])
  ∧ (∀ pre n post,
       (∀ x, x ∈ pre → (pattern g x).1 = []) →
       (pattern g n).1 ≠ [] →
       search pattern g (pre ++ n :: post) = pattern g n).
Proof.
  split.
  - intros values. induction values as [|n values IH].
    + split; [by intros _ n ?%elem_of_nil|done].
    + cbn. destruct (pattern g n) as [[|m ms] following] eqn:Hn.
      * rewrite IH. split.
        -- intros Hall x [->|Hx]%elem_of_cons; [by rewrite Hn|by apply Hall].
        -- intros Hall x Hx. apply Hall, elem_of_cons. by right.
      * split; [done|]. intros Hall.
        specialize (Hall n ltac:(apply elem_of_cons; by left)).
        by rewrite Hn in Hall.
  - intros pre n post Hpre Hn. induction pre as [|x pre IH].
    + cbn. by destruct (pattern g n) as [[|m ms] following].
    + cbn. specialize (Hpre x) as Hx.
      destruct (pattern g x) as [[|m ms] following].
      * apply IH. intros y Hy. apply Hpre, elem_of_cons. by right.
      * cbn in Hx. discriminate Hx. apply elem_of_cons. by left.
Qed.

(** ** The further properties on the samples *)

Lemma add_node_then_getitem_witness :
  Graph.getitem
    (Graph.state_after (Graph.add_node cpython_hash_None Sample.N_again)
       Sample.fanout) (UStr "P")
  = Graph.getitem Sample.fanout (UStr "P")
  ∧ Graph.state_after
      (Graph.add_node cpython_hash_None Sample.N;;
       Graph.add_node cpython_hash_None Sample.N_again) Sample.fanout
    = Graph.state_after (Graph.add_node cpython_hash_None Sample.N_again)
        Sample.fanout.
Proof.
  destruct (add_node_then_getitem cpython_hash_None Sample.fanout
              Sample.N_again) as (_ & _ & Hother & _ & Hlast).
  split.
  - by apply Hother.
  - by apply Hlast.
Defined.

Lemma add_node_then_remove_witness :
  (Graph.add_node cpython_hash_None Sample.X;;
   Graph.remove cpython_hash_None (One Sample.X)) Sample.chain
  = (inr (), Sample.chain).
Proof.
  apply (add_node_then_remove cpython_hash_None Sample.chain Sample.X).
  - vm_compute. reflexivity.
  - refine (proj1 (Forall_forall
                     (λ e : edge, e.1.1 ≠ Node.id Sample.X
                                  ∧ e.1.2 ≠ Node.id Sample.X)
                     (Graph.edges Sample.chain)) _).
    by_computation.
Defined.

Lemma remove_order_irrelevant_witness :
  Graph.remove cpython_hash_None (Many [Sample.A; Sample.B]) Sample.chain
  = Graph.remove cpython_hash_None (Many [Sample.B; Sample.A]) Sample.chain
  ∧ (Graph.remove cpython_hash_None (Many [Sample.A; Sample.B])
       Sample.chain).1 = inr ().
Proof.
  apply (remove_order_irrelevant cpython_hash_None Sample.chain
           [Sample.A; Sample.B] [Sample.B; Sample.A]).
  - apply Permutation_swap.
  - by_computation.
  - refine (proj1 (Forall_forall
                     (λ n, is_Some (Graph.nodes Sample.chain !! Node.id n))
                     [Sample.A; Sample.B]) _).
    by_computation.
Defined.

Lemma keys_agree_with_ids_witness :
  Graph.keyed
    (Graph.state_after
       (Graph.replace cpython_hash_None
          (Many [Sample.A; Sample.B; Sample.C]) Sample.fused)
       Sample.pipeline).
Proof.
  apply (proj2 (keys_agree_with_ids cpython_hash_None) Sample.pipeline).
  by_computation.
Defined.

Lemma edge_list_stays_duplicate_free_witness :
  NoDup
    (Graph.edges
       (Graph.state_after
          (Graph.replace cpython_hash_None
             (Many [Sample.A; Sample.B; Sample.C]) Sample.fused)
          Sample.pipeline)).
Proof.
  apply (edge_list_stays_duplicate_free cpython_hash_None Sample.pipeline).
  by_computation.
Defined.

Lemma siblings_of_dangling_parent_witness :
  Graph.siblings cpython_hash_None Sample.orphan Sample.N = [].
Proof.
  apply (siblings_of_dangling_parent cpython_hash_None Sample.orphan
           Sample.N (UStr "X")).
  - vm_compute. reflexivity.
  - vm_compute. reflexivity.
  - refine (proj1 (Forall_forall
                     (λ e : edge, e.1.1 ≠ UInt cpython_hash_None)
                     (Graph.edges Sample.orphan)) _).
    by_computation.
Defined.

Lemma replace_missing_source_witness :
  ∃ g' extra,
    Graph.replace cpython_hash_None (One Sample.N) Sample.fused
      Sample.dangling = (inl (KeyError (UStr "X")), g')
    ∧ Graph.edges g' = Graph.edges Sample.dangling ++ extra
    ∧ (UStr "P", UStr "fused", Node.output_shape Sample.P) ∈ extra.
Proof.
  destruct (replace_missing_source cpython_hash_None Sample.dangling
              (One Sample.N) Sample.N Sample.fused [UStr "P"] (UStr "X") [])
    as (g' & extra & Hrun & _ & Hedges & _ & Hiff).
  - reflexivity.
  - vm_compute. reflexivity.
  - refine (proj1 (Forall_forall
                     (λ j, is_Some (Graph.nodes Sample.dangling !! j))
                     [UStr "P"]) _).
    by_computation.
  - vm_compute. reflexivity.
  - discriminate.
  - exists g', extra. split; [done|]. split; [done|].
    apply Hiff. split; [by_computation|].
    exists (UStr "P"), Sample.P. split; [by_computation|].
    split; vm_compute; reflexivity.
Defined.

Lemma replace_by_other_object_with_same_id_witness :
  Graph.replace cpython_hash_None (One Sample.N) Sample.N_again
    Sample.fanout
  = Graph.remove cpython_hash_None (One Sample.N) Sample.fanout
  ∧ (Graph.replace cpython_hash_None (One Sample.N) Sample.N_again
       Sample.fanout).1 = inr ()
  ∧ Graph.getitem
      (Graph.state_after
         (Graph.replace cpython_hash_None (One Sample.N) Sample.N_again)
         Sample.fanout) (Node.id Sample.N_again) = None.
Proof.
  apply (replace_by_other_object_with_same_id cpython_hash_None
           Sample.fanout Sample.N Sample.N_again).
  - by_computation.
  - reflexivity.
  - discriminate.
  - refine (proj1 (Forall_forall
                     (λ k, is_Some (Graph.nodes Sample.fanout !! k))
                     (Graph.incoming cpython_hash_None Sample.fanout
                        Sample.N)) _).
    by_computation.
Defined.

Lemma fold_single_node_with_meaningful_id_witness :
  Graph.getitem
    (Graph.state_after
       (Graph.replace cpython_hash_None (Many [Sample.N]) Sample.N_again)
       Sample.fanout) (Node.id Sample.N_again) = None.
Proof.
  apply (fold_single_node_with_meaningful_id cpython_hash_None
           Sample.fanout Sample.N Sample.N_again 0 "N").
  - reflexivity.
  - reflexivity.
  - discriminate.
  - by_computation.
  - refine (proj1 (Forall_forall
                     (λ k, is_Some (Graph.nodes Sample.fanout !! k))
                     (Graph.incoming cpython_hash_None Sample.fanout
                        Sample.N)) _).
    by_computation.
Defined.

Lemma replace_collapse_into_member_witness :
  ∃ g', Graph.replace cpython_hash_None
          (Many [Sample.A; Sample.B; Sample.C]) Sample.A Sample.pipeline
        = (inr (), g')
    ∧ Graph.getitem g' (Node.id Sample.A)
      = Graph.getitem Sample.pipeline (Node.id Sample.A).
Proof.
  destruct (replace_collapse_into_member cpython_hash_None Sample.pipeline
              [Sample.A; Sample.B; Sample.C] Sample.A Sample.C Sample.A)
    as (g' & extra & Hrun & _ & _ & _ & Hkept).
  - reflexivity.
  - reflexivity.
  - by_computation.
  - by_computation.
  - by_computation.
  - refine (proj1 (Forall_forall
                     (λ n, is_Some (Graph.nodes Sample.pipeline
                                      !! Node.id n))
                     [Sample.A; Sample.B; Sample.C]) _).
    by_computation.
  - refine (proj1 (Forall_forall
                     (λ k, is_Some (Graph.nodes Sample.pipeline !! k))
                     (Graph.incoming cpython_hash_None Sample.pipeline
                        Sample.A)) _).
    by_computation.
  - by exists g'.
Defined.

(** Collapsing the chain of the pipeline into its first node A. *)
Example replace_collapse_pipeline :
  Graph.replace cpython_hash_None
    (Many [Sample.A; Sample.B; Sample.C]) Sample.A Sample.pipeline
  = (inr (),
     {| Graph.nodes :=
          <[UStr "P" := Sample.P]>
            (<[UStr "A" := Sample.A]> {[UStr "S" := Sample.S]});
        Graph.edges :=
          [(UStr "P", UStr "A", Node.output_shape Sample.P);
           (UStr "A", UStr "S", PyNone)] |}).
Proof. vm_compute. reflexivity. Qed.

Lemma replace_by_fresh_node_witness :
  ∃ g' extra_in extra_out,
    Graph.replace cpython_hash_None
      (Many [Sample.A; Sample.B; Sample.C]) Sample.fused Sample.pipeline
    = (inr (), g')
    ∧ Graph.edges g'
      = untouched_all (Node.id <$> [Sample.A; Sample.B; Sample.C])
          (Graph.edges Sample.pipeline ++ extra_in ++ extra_out)
    ∧ (UStr "P", UStr "fused", Node.output_shape Sample.P) ∈ extra_in
    ∧ (UStr "fused", UStr "S", Node.output_shape Sample.fused) ∈ extra_out.
Proof.
  destruct (replace_by_fresh_node cpython_hash_None
              [Sample.A; Sample.B; Sample.C] Sample.A Sample.C Sample.fused
              Sample.pipeline)
    as (g' & extra_in & extra_out & Hrun & _ & Hedges & _ & Hin & _ & Hout).
  - reflexivity.
  - reflexivity.
  - by_computation.
  - refine (proj1 (Forall_forall
                     (λ n, is_Some (Graph.nodes Sample.pipeline
                                      !! Node.id n))
                     [Sample.A; Sample.B; Sample.C]) _).
    by_computation.
  - vm_compute. reflexivity.
  - refine (proj1 (Forall_forall
                     (λ k, is_Some (Graph.nodes Sample.pipeline !! k))
                     (Graph.incoming cpython_hash_None Sample.pipeline
                        Sample.A)) _).
    by_computation.
  - assert (Hp : (UStr "P", UStr "fused", Node.output_shape Sample.P)
                 ∈ extra_in).
    { apply Hin. split; [by_computation|].
      exists (UStr "P"), Sample.P. split; [by_computation|].
      split; vm_compute; reflexivity. }
    exists g', extra_in, extra_out. split; [done|]. split; [done|].
    split; [done|]. apply Hout. split.
    + intros [He|He]%elem_of_app.
      * revert He. by_computation.
      * by apply Hin in He as (_ & k & n & _ & _ & [=]).
    + exists (UStr "S"). split; [|vm_compute; reflexivity].
      apply elem_of_outgoing. exists (UStr "C"), PyNone.
      split; [by_computation|]. apply elem_of_app. left. by_computation.
Defined.

Lemma sequence_id_policies_witness :
  sequence_id true 0 [Sample.A; Sample.B] = inr (UStr "A><B")
  ∧ sequence_id true 0
      [Sample.A; Sample.layer 20 "A><B" "conv_relu" PyNone; Sample.C]
    = sequence_id true 0 [Sample.A; Sample.A; Sample.B; Sample.C].
Proof.
  destruct sequence_id_policies as (_ & Hstr & _ & Hflat).
  split.
  - apply (Hstr 0 [Sample.A; Sample.B] ["A"; "B"]). reflexivity.
  - apply (Hflat 0 [Sample.A] [Sample.A; Sample.B] [Sample.C]
             (Sample.layer 20 "A><B" "conv_relu" PyNone)
             (UStr "A><A><B><C")); [done|reflexivity|reflexivity].
Defined.

Lemma detect_framework_first_class_witness :
  detect_framework ["__main__"; "torch.nn.modules.module"] = Some "torch".
Proof.
  apply (proj1 (proj2 detect_framework_first_class)
           ["__main__"] "torch.nn.modules.module" []).
  - intros x ->%list_elem_of_singleton. by split.
  - reflexivity.
Defined.

Lemma search_first_match_witness :
  search Sample.relu_pattern Sample.chain [Sample.A; Sample.B; Sample.C]
  = ([Sample.B], None).
Proof.
  apply (proj2 (search_first_match Sample.relu_pattern Sample.chain)
           [Sample.A] Sample.B [Sample.C]).
  - intros x ->%list_elem_of_singleton. reflexivity.
  - discriminate.
Defined.

Lemma outgoing_of_list_is_union_witness :
  UStr "B"
  ∈ Graph.outgoing cpython_hash_None Sample.chain
      (Many [Some Sample.A; Some Sample.B]).
Proof.
  apply (proj1 (proj2 (outgoing_of_list_is_union cpython_hash_None
                         Sample.chain [Some Sample.A; Some Sample.B]))).
  exists (Some Sample.A). split; by_computation.
Defined.

Lemma incoming_outgoing_agree_witness :
  Node.id Sample.P ∈ Graph.incoming cpython_hash_None Sample.fanout Sample.N.
Proof.
  apply (proj1 (incoming_outgoing_agree cpython_hash_None Sample.fanout
                  Sample.P Sample.N)).
  by_computation.
Defined.

(** ** The file name and directory of save *)


















Lemma split_at_last_slash_tail p :
  has_char "/" (split_at_last_slash p).2 = false.
Proof.
  induction p as [|c p IH]; [reflexivity|].
  cbn [split_at_last_slash].
  destruct (split_at_last_slash p) as [[|x head] tail]; cbn [snd] in *.
  - destruct (Ascii.eqb c "/") eqn:Hc; cbn [snd has_char]; [done|].
    by rewrite Hc.
  - done.
Qed.

Lemma delete_occurrences_has_char c old s : ∀ skip,
  has_char c s = false →
  has_char c (delete_occurrences old skip s) = false.
Proof.
  induction s as [|x s IH]; intros skip Hs; [reflexivity|].
  cbn [has_char] in Hs. destruct (Ascii.eqb x c) eqn:Hx; [done|].
  cbn [delete_occurrences]. destruct skip as [|k]; [|by apply IH].
  destruct (String.prefix old (String x s)); [by apply IH|].
  cbn [has_char]. rewrite Hx. by apply IH.
Qed.

(** X19. Whatever the path and the format, the file name that [save] hands
    to the renderer contains no slash: it is taken after the last slash of
    the path, and removing the extension only deletes characters. *)
Theorem save_file_name_has_no_slash path format :
  has_char "/" (save_render_arguments path format).1 = false.
Proof.
  unfold save_render_arguments, os_path_split.
  pose proof (split_at_last_slash_tail path) as Htail.
  destruct (split_at_last_slash path) as [head tail]. cbn [fst snd] in *.
  by apply delete_occurrences_has_char.
Qed.
